(** * 3Di: backbone geometry, feature extraction and the createdb driver

    A shallow embedding of the code shown in [reports/3di.md]
    (lib/3di/structureto3di.cpp, structureto3di.h, structureto3diseqdist.h)
    and of [src/strucclustutils/structcreatedb.cpp].

    The C++ code computes on [double].  The geometry is therefore written once,
    over an interface of the arithmetic operations the code calls, and used at
    two instances: IEEE-754 binary64 (the kernel's primitive floats), which is
    what the program runs on, and the real numbers, its round-off-free reading. *)

From Stdlib Require Import ZArith List Bool Lia Ascii String Sorted.
From Stdlib Require Import Floats.PrimFloat.
From Stdlib Require Import Reals Lra RNsatz.
Import ListNotations.

Set Implicit Arguments.
Set Warnings "-inexact-float".

(** ** The arithmetic the code calls *)

(** The operations of [double] used by the functions shown in the report:
    [+ - * /] and [sqrt] (cmath). *)
Record Arith : Type := MkArith {
  num :> Type;
  fadd : num -> num -> num;
  fsub : num -> num -> num;
  fmul : num -> num -> num;
  fdiv : num -> num -> num;
  fsqrt : num -> num;
}.

(** The remaining cmath calls of structureto3di.cpp: [cos], [sin], [log],
    [fabs], [fmin], [copysign], and the conversion of an [int] to [double]. *)
Record Libm (A : Arith) : Type := MkLibm {
  fcos : A -> A;
  fsin : A -> A;
  flog : A -> A;
  ffabs : A -> A;
  ffmin : A -> A -> A;
  fcopysign : A -> A -> A;
  of_int : Z -> A;
}.

(** ** Vec3 and the geometry primitives *)

Section Geometry.
Variable A : Arith.

Record Vec3 : Type := MkVec3 { vx : A; vy : A; vz : A }.

Local Notation "a +. b" := (fadd A a b) (at level 50, left associativity).
Local Notation "a -. b" := (fsub A a b) (at level 50, left associativity).
Local Notation "a *. b" := (fmul A a b) (at level 40, left associativity).
Local Notation "a /. b" := (fdiv A a b) (at level 40, left associativity).

(** The helpers [add], [sub], [scale], [dot] and [cross] of
    StructureTo3DiBase are called by the code shown in the report but their
    bodies are not part of it; section 4.1 names them as the usual 3-vector
    operations. *)

(** Modelled from the spec: [add] of section 4.1, the sum of two vectors. *)
Definition add (a b : Vec3) : Vec3 :=
  MkVec3 (vx a +. vx b) (vy a +. vy b) (vz a +. vz b).

(** Modelled from the spec: [sub] of section 4.1, the difference. *)
Definition sub (a b : Vec3) : Vec3 :=
  MkVec3 (vx a -. vx b) (vy a -. vy b) (vz a -. vz b).

(** Modelled from the spec: [scale(v, s)] of section 4.1. *)
Definition scale (a : Vec3) (f : A) : Vec3 :=
  MkVec3 (vx a *. f) (vy a *. f) (vz a *. f).

(** Modelled from the spec: [dot] of section 4.1, the scalar product. *)
Definition dot (a b : Vec3) : A :=
  vx a *. vx b +. vy a *. vy b +. vz a *. vz b.

(** Modelled from the spec: [cross] of section 4.1, the vector product. *)
Definition cross (a b : Vec3) : Vec3 :=
  MkVec3 (vy a *. vz b -. vz a *. vy b)
         (vz a *. vx b -. vx a *. vz b)
         (vx a *. vy b -. vy a *. vx b).

(** structureto3di.cpp, line 23:
<<
    Vec3 StructureTo3DiBase::norm(Vec3 a){
        double len = sqrt(a.x * a.x + a.y * a.y + a.z * a.z);
        a.x = a.x / len;  a.y = a.y / len;  a.z = a.z / len;
        return a;
    }
>>
    There is no test of [len]: the function returns a [Vec3] on every input. *)
Definition norm (a : Vec3) : Vec3 :=
  let len := fsqrt A (vx a *. vx a +. vy a *. vy a +. vz a *. vz a) in
  MkVec3 (vx a /. len) (vy a /. len) (vz a /. len).

(** structureto3di.cpp, line 101. *)
Definition calcDistanceBetween (a b : Vec3) : A :=
  let dx := vx a -. vx b in
  let dy := vy a -. vy b in
  let dz := vz a -. vz b in
  fsqrt A (dx *. dx +. dy *. dy +. dz *. dz).

End Geometry.

(** ** The two instances *)

(** IEEE-754 binary64: the [double] of the program. *)
Definition DoubleArith : Arith :=
  MkArith PrimFloat.add PrimFloat.sub PrimFloat.mul PrimFloat.div PrimFloat.sqrt.

(** The real numbers: the same operations without rounding.  [copysign x y]
    is the magnitude of [x] with the sign of [y]; a real zero counts as
    positive, as [+0.0] does. *)
Definition RArith : Arith := MkArith Rplus Rminus Rmult Rdiv sqrt.

Definition Rcopysign (x y : R) : R :=
  if Rlt_dec y 0 then Ropp (Rabs x) else Rabs x.

Definition RLibm : Libm RArith :=
  MkLibm RArith cos sin ln Rabs Rmin Rcopysign IZR.

(** ** Constants of the two alphabets *)

(** structureto3di.h, line 8. *)
Module Alphabet3Di.
Definition CENTROID_CNT : Z := 20.
(** [static const char INVALID_STATE = 2; // assign invalid residues to coil state] *)
Definition INVALID_STATE : Z := 2.
Definition DISTANCE_ALPHA_BETA : float := 1.5336%float.
Definition PI : float := 3.14159265359%float.
Definition FEATURE_CNT : nat := 10.
Definition EMBEDDING_DIM : nat := 2.
Record virtual_center : Type :=
  MkVirtualCenter { alpha : float; beta : float; d : float }.
Definition VIRTUAL_CENTER : virtual_center := MkVirtualCenter 270 0 2.
End Alphabet3Di.

(** structureto3diseqdist.h, line 7. *)
Module Alphabet3diSeqDist.
Definition CENTROID_CNT : Z := 20.
Definition INVALID_STATE : Z := CENTROID_CNT.
Definition centroids : list Z :=
  [-284; -147; -83; -52; -33; -21; -13; -7; -4; -3;
   -1; 1; 3; 7; 13; 24; 40; 68; 123; 250]%Z.
End Alphabet3diSeqDist.

(** A state code of an alphabet with [K] centroids and reserved code
    [INVALID]: a centroid index or the reserved code. *)
Definition state_code (K INVALID s : Z) : Prop :=
  (0 <= s < K)%Z \/ s = INVALID.

(** The reserved code is the one past the centroids, and so is not the index
    of a centroid. *)
Definition reserved_past_centroids (K INVALID : Z) : Prop :=
  INVALID = K /\ ~ (0 <= INVALID < K)%Z.

(** ** Rotation and feature extraction *)

Section Features.
Variable A : Arith.
Variable M : Libm A.

Local Notation "a +. b" := (fadd A a b) (at level 50, left associativity).
Local Notation "a -. b" := (fsub A a b) (at level 50, left associativity).
Local Notation "a *. b" := (fmul A a b) (at level 40, left associativity).

(** structureto3di.cpp, line 89, inside [calcVirtualCenter]:
<<
    v = add(add(scale(v, cos(alpha)), scale(cross(k, v), sin(alpha))),
            scale(scale(k, dot(k, v)), 1 - cos(alpha)));
>>
    the new value of [v], as a function of [v], the axis [k] and the angle. *)
Definition rotate (v k : Vec3 A) (theta : A) : Vec3 A :=
  add (add (scale v (fcos M theta)) (scale (cross k v) (fsin M theta)))
      (scale (scale k (dot k v)) (of_int M 1 -. fcos M theta)).

(** Rodrigues' formula as section 4.1 writes it,
    v cos t + (axis x v) sin t + axis (axis . v) (1 - cos t),
    one coordinate at a time. *)
Definition rodrigues (v axis : Vec3 A) (theta : A) : Vec3 A :=
  let c := fcos M theta in
  let s := fsin M theta in
  let av := vx axis *. vx v +. vy axis *. vy v +. vz axis *. vz v in
  let one := of_int M 1 in
  MkVec3 A
    (vx v *. c +. (vy axis *. vz v -. vz axis *. vy v) *. s +. vx axis *. av *. (one -. c))
    (vy v *. c +. (vz axis *. vx v -. vx axis *. vz v) *. s +. vy axis *. av *. (one -. c))
    (vz v *. c +. (vx axis *. vy v -. vy axis *. vx v) *. s +. vz axis *. av *. (one -. c)).

(** [ca[k]] for an [int] index: reading outside the array is undefined
    behaviour in C++ and has no value here. *)
Definition at_index (ca : list (Vec3 A)) (k : Z) : option (Vec3 A) :=
  if (k <? 0)%Z then None else nth_error ca (Z.to_nat k).

(** structureto3di.cpp, line 189, [StructureTo3Di::calcFeatures]; the result
    is the array [features[FEATURE_CNT]] in index order.  [i] and [j] are
    [int]: for the indices of an array in memory [i - 1], [i + 1] and [j - i]
    do not wrap, and they are computed in [Z]. *)
Definition calcFeatures (ca : list (Vec3 A)) (i j : Z) : option (list A) :=
  match at_index ca (i - 1), at_index ca i, at_index ca (i + 1),
        at_index ca (j - 1), at_index ca j, at_index ca (j + 1) with
  | Some ca_im, Some ca_i, Some ca_ip, Some ca_jm, Some ca_j, Some ca_jp =>
      let u1 := norm (sub ca_i ca_im) in
      let u2 := norm (sub ca_ip ca_i) in
      let u3 := norm (sub ca_j ca_jm) in
      let u4 := norm (sub ca_jp ca_j) in
      let u5 := norm (sub ca_j ca_i) in
      Some [ dot u1 u2;
             dot u3 u4;
             dot u1 u5;
             dot u3 u5;
             dot u1 u4;
             dot u2 u3;
             dot u1 u3;
             calcDistanceBetween ca_i ca_j;
             fcopysign M (ffmin M (ffabs M (of_int M (j - i))) (of_int M 4))
                         (of_int M (j - i));
             fcopysign M (flog M (ffabs M (of_int M (j - i)) +. of_int M 1))
                         (of_int M (j - i)) ]
  | _, _, _, _, _, _ => None
  end.

End Features.

(** ** The feature table of section 4.4, in the spec's words *)

Module FeatureSpec.
Local Open Scope R_scope.

Definition V := Vec3 RArith.

Definition vsub (a b : V) : V :=
  MkVec3 RArith (vx a - vx b) (vy a - vy b) (vz a - vz b).

Definition vdot (a b : V) : R := vx a * vx b + vy a * vy b + vz a * vz b.

(** norm2(v) = sqrt(x^2 + y^2 + z^2) *)
Definition norm2 (v : V) : R := sqrt ((vx v)^2 + (vy v)^2 + (vz v)^2).

(** unit(v) = v / norm2(v) *)
Definition unit (v : V) : V :=
  MkVec3 RArith (vx v / norm2 v) (vy v / norm2 v) (vz v / norm2 v).

(** dist(a, b) = norm2(a - b) *)
Definition dist (a b : V) : R := norm2 (vsub a b).

Definition sign (z : Z) : R := IZR (Z.sgn z).

(** The ten slots, for a pair whose six residues [i-1], [i], [i+1], [j-1],
    [j], [j+1] are given. *)
Definition features (ca_im ca_i ca_ip ca_jm ca_j ca_jp : V) (i j : Z) : list R :=
  let u1 := unit (vsub ca_i ca_im) in
  let u2 := unit (vsub ca_ip ca_i) in
  let u3 := unit (vsub ca_j ca_jm) in
  let u4 := unit (vsub ca_jp ca_j) in
  let u5 := unit (vsub ca_j ca_i) in
  [ vdot u1 u2; vdot u3 u4; vdot u1 u5; vdot u3 u5; vdot u1 u4;
    vdot u2 u3; vdot u1 u3;
    dist ca_i ca_j;
    sign (j - i) * Rmin (IZR (Z.abs (j - i))) 4;
    sign (j - i) * ln (IZR (Z.abs (j - i)) + 1) ].

(** Ca[k], for an index in range. *)
Definition Ca (ca : list V) (k : Z) : V :=
  nth (Z.to_nat k) ca (MkVec3 RArith 0 0 0).

Definition features_at (ca : list V) (i j : Z) : list R :=
  features (Ca ca (i - 1)) (Ca ca i) (Ca ca (i + 1))
           (Ca ca (j - 1)) (Ca ca j) (Ca ca (j + 1)) i j.
End FeatureSpec.

(** ** Partner selection and the state pipeline *)

(** [findResiduePartners] and [structure2states] are called by the code under
    review but their bodies are not shown in the report; they are modelled from
    sections 4.3 and 4.7 of the specification. *)

Section PartnerSelector.
Variable A : Arith.
(** [fle a b]: the comparison [a <= b] of two costs. *)
Variable fle : A -> A -> bool.
(** The weight [w] and the sequence penalty [f] of the composite cost. *)
Variable w : A.
Variable f : nat -> A.
(** The EffectiveCb array: its length and its entries. *)
Variable L : nat.
Variable cb : nat -> Vec3 A.

(** Modelled from the spec: the sequence separation |j - i|. *)
Definition seqsep (i j : nat) : nat := if j <? i then i - j else j - i.

(** Modelled from the spec: the composite cost of section 4.3,
    cost(i, j) = dist(EffectiveCb[i], EffectiveCb[j]) + w * f(|j - i|). *)
Definition cost (i j : nat) : A :=
  fadd A (calcDistanceBetween (cb i) (cb j)) (fmul A w (f (seqsep i j))).

(** Modelled from the spec: the candidates of residue [i] are the [j <> i]
    with [0 < j < L - 1], in increasing order. *)
Definition candidates (i : nat) : list nat :=
  filter (fun j => negb (j =? i)) (seq 1 (L - 2)).

(** Modelled from the spec: [j] is at least as good a partner of [i] as [k]:
    smaller cost, or equal cost and smaller |j - i|, or both equal and
    [j <= k] (the tie-breaking order of section 4.3). *)
Definition prefer (i j k : nat) : bool :=
  fle (cost i j) (cost i k) &&
  (negb (fle (cost i k) (cost i j))
   || (seqsep i j <? seqsep i k)
   || ((seqsep i j =? seqsep i k) && (j <=? k))).

(** Modelled from the spec: one pass over the candidates keeping the
    preferred one. *)
Fixpoint scan (i best : nat) (js : list nat) : nat :=
  match js with
  | [] => best
  | k :: js' => scan i (if prefer i best k then best else k) js'
  end.

(** Modelled from the spec: argmin of the cost over the candidates. *)
Definition findPartner (i : nat) : option nat :=
  match candidates i with
  | [] => None
  | j :: js => Some (scan i j js)
  end.

(** Modelled from the spec: the output of the partner selector for residue
    [i], a partner and a validity bit.  The endpoints [0] and [L - 1] are
    assigned INVALID and skipped; a residue without candidate is invalid. *)
Definition findResiduePartners (i : nat) : option nat * bool :=
  if (i =? 0) || (i =? L - 1) then (None, false)
  else match findPartner i with
       | Some j => (Some j, true)
       | None => (None, false)
       end.

End PartnerSelector.

Section Driver.
Variable A : Arith.
Variable M : Libm A.
Variable fle : A -> A -> bool.
Variable w : A.
Variable f : nat -> A.
(** The reserved state: [INVALID_STATE] of the alphabet in use. *)
Variable INVALID : Z.
(** The embedding network (section 4.5) and the centroid quantiser (section
    4.6): the weights and the centroid table are in
    encoder_weights_3di.kerasify.h, which is not part of the sources. *)
Variable embed : list A -> list A.
Variable quantise : list A -> nat.
(** The virtual-center synthesiser (section 4.2), giving EffectiveCb. *)
Variable effectiveCb : list (Vec3 A) -> list (Vec3 A) -> list (Vec3 A) ->
                       list (Vec3 A) -> nat -> Vec3 A.

(** Modelled from the spec: steps 3 and 4 of section 4.7 for one residue. *)
Definition state_of (ca : list (Vec3 A)) (i : nat) (p : option nat * bool) : Z :=
  match p with
  | (Some j, true) =>
      match calcFeatures M ca (Z.of_nat i) (Z.of_nat j) with
      | Some x => Z.of_nat (quantise (embed x))
      | None => INVALID
      end
  | _ => INVALID
  end.

(** Modelled from the spec: the driver of section 4.7, for a chain of [len]
    residues. *)
Definition structure2states (ca n c cb : list (Vec3 A)) (len : nat) : list Z :=
  let ecb := effectiveCb ca n c cb in
  map (fun i => state_of ca i (findResiduePartners fle w f len ecb i))
      (seq 0 len).

End Driver.

(** ** createdb (structcreatedb.cpp) *)

(** What a [DBWriter] was asked to write: the calls of [writeData] (or of
    [writeStart]/[writeAdd]/[writeEnd]) in program order, each with its key
    and its data.  [DBWriter] itself belongs to the database library and is
    not modelled: no call is dropped from the list; [record_of] is the record
    written last under a key and [records_under] are all of them. *)
Definition DBWriter (T : Type) : Type := list (nat * list T).

Definition writeData {T : Type} (w : DBWriter T) (data : list T) (key : nat)
  : DBWriter T := w ++ [(key, data)].

Fixpoint record_of {T : Type} (key : nat) (w : DBWriter T) : option (list T) :=
  match w with
  | [] => None
  | (k, data) :: w' =>
      match record_of key w' with
      | Some later => Some later
      | None => if k =? key then Some data else None
      end
  end.

Definition keys {T : Type} (w : DBWriter T) : list nat := map fst w.

(** The records written under a key, in the order of the calls. *)
Definition records_under {T : Type} (key : nat) (w : DBWriter T) : list (list T) :=
  map snd (filter (fun record => fst record =? key) w).

(** A write that replaces the previous record of its key leaves one record
    under the key. *)
Definition replaces_previous {T : Type} (key : nat) (w : DBWriter T) : Prop :=
  List.length (records_under key w) = 1.

(** [size_t] subtraction, modulo 2^64. *)
Definition size_t_sub (a b : nat) : nat :=
  Z.to_nat ((Z.of_nat a - Z.of_nat b) mod 2 ^ 64).

(** [&v[start]] read for [len] elements (reading past the end of the vector
    is undefined behaviour in C++; the slice stops there). *)
Definition slice {T : Type} (v : list T) (start len : nat) : list T :=
  firstn len (skipn start v).

Definition EXIT_SUCCESS : Z := 0.
Definition EXIT_FAILURE : Z := 1.

(** How the command ends: [return code] or [EXIT(code)]. *)
Inductive outcome : Type :=
| Returned (code : Z)
| Exited (code : Z).

Section CreateDb.
(** [double] coordinates, and the [float] they are narrowed to in [camol]. *)
Variable A : Arith.
Variable float32 : Type.
Variable to_float : A -> float32.

(** The members of [GemmiWrapper] that createdb reads after [load]. *)
Record GemmiWrapper : Type := MkGemmiWrapper {
  chain : list (nat * nat);
  ca : list (Vec3 A);
  n : list (Vec3 A);
  c : list (Vec3 A);
  cb : list (Vec3 A);
  ami : list ascii;
  names : list (list ascii);
}.

(** [readStructure.load(filename)]: [None] when it returns [false]. *)
Variable load : string -> option GemmiWrapper.
(** [structureTo3Di.structure2states(ca, n, c, cb, chainLen)]. *)
Variable structure2states3Di :
  list (Vec3 A) -> list (Vec3 A) -> list (Vec3 A) -> list (Vec3 A) -> nat -> list Z.
(** [mat.num2aa]. *)
Variable num2aa : Z -> ascii.

Definition newline : ascii := ascii_of_nat 10.

(** The per-thread buffers, the four writers and the counter. *)
Record state : Type := MkState {
  alphabet3di : list ascii;
  camol : list float32;
  torsiondbw : DBWriter ascii;
  hdbw : DBWriter ascii;
  cadbw : DBWriter float32;
  aadbw : DBWriter ascii;
  incorrectFiles : nat;
}.

Definition initial : state := MkState [] [] [] [] [] [] 0.

(** [readStructure.chain[ch]] and [chainLen = chainEnd - chainStart]. *)
Definition chainBounds (s : GemmiWrapper) (ch : nat) : nat * nat :=
  nth ch (chain s) (0, 0).

Definition chainLen (s : GemmiWrapper) (ch : nat) : nat :=
  size_t_sub (snd (chainBounds s ch)) (fst (chainBounds s ch)).

(** What one chain appends to [alphabet3di], lines 93-101: the letter
    [num2aa[states[pos]]] of each of the [chainLen] states, then a newline. *)
Definition chain3Di (s : GemmiWrapper) (ch : nat) : list ascii :=
  let chainStart := fst (chainBounds s ch) in
  let len := chainLen s ch in
  let states := structure2states3Di (skipn chainStart (ca s)) (skipn chainStart (n s))
                                    (skipn chainStart (c s)) (skipn chainStart (cb s)) len in
  map (fun pos => num2aa (nth pos states 0%Z)) (seq 0 len) ++ [newline].

(** What one chain appends to [camol], lines 110-118: the x, then the y,
    then the z of its CA atoms. *)
Definition chainCa (s : GemmiWrapper) (ch : nat) : list float32 :=
  let chainStart := fst (chainBounds s ch) in
  let len := chainLen s ch in
  let atoms := slice (ca s) chainStart len in
  map (fun a => to_float (vx a)) atoms ++
  map (fun a => to_float (vy a)) atoms ++
  map (fun a => to_float (vz a)) atoms.

(** The body of the loop over chains, lines 89-120, for file key [i]. *)
Definition processChain (s : GemmiWrapper) (i : nat) (st : state) (ch : nat) : state :=
  let chainStart := fst (chainBounds s ch) in
  let len := chainLen s ch in
  let alphabet3di' := alphabet3di st ++ chain3Di s ch in
  let camol' := camol st ++ chainCa s ch in
  MkState alphabet3di'
          camol'
          (writeData (torsiondbw st) alphabet3di' i)
          (writeData (hdbw st) (nth ch (names s) []) i)
          (writeData (cadbw st) camol' i)
          (writeData (aadbw st) (slice (ami s) chainStart len ++ [newline]) i)
          (incorrectFiles st).

(** Chains [0 .. k-1] of a loaded file, in order. *)
Definition processChains (s : GemmiWrapper) (i : nat) (st : state) (k : nat) : state :=
  fold_left (processChain s i) (seq 0 k) st.

(** The body of the loop over files, lines 80-123: the buffers are cleared,
    a file that does not load is counted and skipped. *)
Definition clearBuffers (st : state) : state :=
  MkState [] [] (torsiondbw st) (hdbw st) (cadbw st) (aadbw st) (incorrectFiles st).

Definition processFile (filenames : list string) (st : state) (i : nat) : state :=
  let st := clearBuffers st in
  match load (nth i filenames EmptyString) with
  | None =>
      MkState (alphabet3di st) (camol st) (torsiondbw st) (hdbw st) (cadbw st)
              (aadbw st) (S (incorrectFiles st))
  | Some s => processChains s i st (List.length (chain s))
  end.

(** The loop over files.  Under OpenMP the iterations are shared out among
    threads, each with buffers of its own, and the counters are summed
    ([reduction(+:incorrectFiles)]); an iteration starts by clearing the
    buffers and tags its writes with [i], so the iterations are run here
    one after the other.  With several threads the writes of different files
    reach a writer in another order: what this fold gives is the records of
    each file, in their order, and the number of records under each key, not
    the order of the records of different files. *)
Definition processFiles (filenames : list string) : state :=
  fold_left (processFile filenames) (seq 0 (List.length filenames)) initial.

(** The last line of output: the two numbers of
    "<incorrectFiles> out of <filenames.size()> entries are incorrect." *)
Definition report (filenames : list string) (st : state) : nat * nat :=
  (incorrectFiles st, List.length filenames).

(** createdb after argument parsing and directory expansion.  [writeLookup]
    is [par.writeLookup]; [lookup_io_ok] says that every [fwrite] and
    [fclose] of the lookup and source files succeeds (lines 156-183 call
    [EXIT(EXIT_FAILURE)] otherwise). *)
Definition createdb (writeLookup lookup_io_ok : bool) (filenames : list string)
  : outcome * state * option (nat * nat) :=
  let st := processFiles filenames in
  if writeLookup && negb lookup_io_ok
  then (Exited EXIT_FAILURE, st, None)
  else (Returned EXIT_SUCCESS, st, Some (report filenames st)).

(** The 3Di letters, and the coordinates, of chains [0 .. k-1] of a file. *)
Definition accumulated3Di (s : GemmiWrapper) (k : nat) : list ascii :=
  List.concat (map (chain3Di s) (seq 0 k)).

Definition accumulatedCa (s : GemmiWrapper) (k : nat) : list float32 :=
  List.concat (map (chainCa s) (seq 0 k)).

(** [load] returns [false] for the file of index [i]. *)
Definition failed (filenames : list string) (i : nat) : bool :=
  match load (nth i filenames EmptyString) with
  | None => true
  | Some _ => false
  end.

(** The keys under which anything was written, in any of the four writers. *)
Definition written_keys (st : state) : list nat :=
  keys (torsiondbw st) ++ keys (hdbw st) ++ keys (cadbw st) ++ keys (aadbw st).

End CreateDb.

(** ** Inputs the definitions are run on *)

(** The four corners of a unit square, as a chain. *)
Definition square_chain : list (Vec3 RArith) :=
  [ MkVec3 RArith 0 0 0; MkVec3 RArith 1 0 0;
    MkVec3 RArith 1 1 0; MkVec3 RArith 0 1 0 ]%R.

(** The difference of two coincident atoms, and what [norm] makes of it. *)
Definition zero_vector : Vec3 DoubleArith := MkVec3 DoubleArith 0%float 0%float 0%float.
Definition nan_vector : Vec3 DoubleArith := MkVec3 DoubleArith nan nan nan.

(** Integer arithmetic, exact and totally ordered, to run the selector on. *)
Definition IntArith : Arith := MkArith Z.add Z.sub Z.mul Z.div Z.sqrt.

(** A chain on the integer grid, three units between neighbours. *)
Definition line_cb (i : nat) : Vec3 IntArith :=
  MkVec3 IntArith (Z.of_nat (3 * i)) 0%Z 0%Z.

(** The penalty [f(d) = d]. *)
Definition separation (d : nat) : IntArith := Z.of_nat d.

(** Seven residues on the integer grid: seen from residue 3, residue 1 is at
    distance 9 and residues 2, 4 and 5 are all at distance 5. *)
Definition grid_cb (i : nat) : Vec3 IntArith :=
  match i with
  | 1 => MkVec3 IntArith 9%Z 0%Z 0%Z
  | 2 => MkVec3 IntArith 5%Z 0%Z 0%Z
  | 4 => MkVec3 IntArith 0%Z 5%Z 0%Z
  | 5 => MkVec3 IntArith 0%Z 0%Z 5%Z
  | 6 => MkVec3 IntArith 30%Z 0%Z 0%Z
  | _ => MkVec3 IntArith 0%Z 0%Z 0%Z
  end.

(** The comparison of two real costs. *)
Definition Rleb (a b : R) : bool := if Rle_dec a b then true else false.

(** EffectiveCb of a chain whose Cb are all present: Cb itself. *)
Definition present_cb (ca n c cb : list (Vec3 RArith)) (i : nat) : Vec3 RArith :=
  nth i cb (MkVec3 RArith 0%R 0%R 0%R).

(** A file of two chains, of two residues and of one, and a directory listing
    in which one file loads and one does not. *)
Definition sample_structure : GemmiWrapper DoubleArith :=
  MkGemmiWrapper
    [(0, 2); (2, 3)]
    [MkVec3 DoubleArith 1%float 2%float 3%float;
     MkVec3 DoubleArith 4%float 5%float 6%float;
     MkVec3 DoubleArith 7%float 8%float 9%float]
    [] [] []
    (list_ascii_of_string "ACD")
    [list_ascii_of_string "1abc_A"; list_ascii_of_string "1abc_B"].

(** [load] succeeds on "ok.pdb" only. *)
Definition sample_load (name : string) : option (GemmiWrapper DoubleArith) :=
  if String.eqb name "ok.pdb" then Some sample_structure else None.

(** A stand-in for [structure2states]: state 3 for every residue. *)
Definition sample_states (ca n c cb : list (Vec3 DoubleArith)) (len : nat) : list Z :=
  repeat 3%Z len.

(** A stand-in for [mat.num2aa]: state 0 is "A", state 1 is "B", ... *)
Definition sample_num2aa (state : Z) : ascii := ascii_of_nat (65 + Z.to_nat state).

(** The file list after directory expansion. *)
Definition sample_files : list string := ["bad.pdb"; "ok.pdb"]%string.

(** The narrowing of a coordinate to [float], left exact. *)
Definition same_float (x : DoubleArith) : float := x.

(** Every atom of a chain moved by the same vector. *)
Definition translate (A : Arith) (t : Vec3 A) (ca : list (Vec3 A)) : list (Vec3 A) :=
  map (fun a => add a t) ca.

(** 2^53: adding 1 to it is absorbed by rounding. *)
Definition far_away : Vec3 DoubleArith :=
  MkVec3 DoubleArith 9007199254740992%float 0%float 0%float.

(** ** Further code of the report and of createdb *)

(** structureto3di.cpp, line 61:
<<
    Vec3 v4 = add(
            scale(v1, -1/3.0), scale(sub(scale(u1, -1/2.0),
            scale(u2, sqrt(3)/2.0)), sqrt(8)/3.0)
            );
>>
    as a function of [v1], [u1] and [u2]; the [int] literals are converted to
    [double] before the divisions and the square roots. *)
Definition v4 (A : Arith) (M : Libm A) (v1 u1 u2 : Vec3 A) : Vec3 A :=
  add (scale v1 (fdiv A (of_int M (-1)) (of_int M 3)))
      (scale (sub (scale u1 (fdiv A (of_int M (-1)) (of_int M 2)))
                  (scale u2 (fdiv A (fsqrt A (of_int M 3)) (of_int M 2))))
             (fdiv A (fsqrt A (of_int M 8)) (of_int M 3))).

(** Every atom of a chain turned about the axis [k] by the angle [theta], and
    every atom scaled by [s]. *)
Definition rotate_chain (k : Vec3 RArith) (theta : R) (ca : list (Vec3 RArith))
  : list (Vec3 RArith) :=
  map (fun a => rotate RLibm a k theta) ca.

Definition scale_chain (s : R) (ca : list (Vec3 RArith)) : list (Vec3 RArith) :=
  map (fun a : Vec3 RArith => scale a s) ca.

(** A vector with a component that is not zero. *)
Definition nonzero (v : Vec3 RArith) : Prop :=
  vx v <> 0%R \/ vy v <> 0%R \/ vz v <> 0%R.

(** What scaling the coordinates by [s] does to a feature array: the
    distance in slot 7 is multiplied by [s]. *)
Definition scale_slot7 (s : R) (x : list R) : list R :=
  firstn 7 x ++ map (Rmult s) (firstn 1 (skipn 7 x)) ++ skipn 8 x.

(** What exchanging the residue and its partner does to a feature array. *)
Definition swap_features (x : list R) : list R :=
  match x with
  | [f0; f1; f2; f3; f4; f5; f6; f7; f8; f9] =>
      [f1; f0; Ropp f3; Ropp f2; f5; f4; f6; f7; Ropp f8; Ropp f9]
  | _ => x
  end.

(** The axes of the coordinate system, and two points to measure between. *)
Definition axis_x : Vec3 RArith := MkVec3 RArith 1%R 0%R 0%R.
Definition axis_y : Vec3 RArith := MkVec3 RArith 0%R 1%R 0%R.
Definition axis_z : Vec3 RArith := MkVec3 RArith 0%R 0%R 1%R.
Definition point_p : Vec3 RArith := MkVec3 RArith 1%R 2%R 3%R.
Definition point_q : Vec3 RArith := MkVec3 RArith 4%R 6%R 3%R.

Section CreateDbCounts.
Variable A : Arith.
Variable load : string -> option (GemmiWrapper A).

(** [readStructure.chain.size()] for the file of index [i], 0 when it does
    not load. *)
Definition chainCount (filenames : list string) (i : nat) : nat :=
  match load (nth i filenames EmptyString) with
  | None => 0
  | Some s => List.length (chain s)
  end.

(** The keys of one record per chain of each file, file after file. *)
Definition keys_per_chain (filenames : list string) (k : nat) : list nat :=
  flat_map (fun i => repeat i (chainCount filenames i)) (seq 0 k).

End CreateDbCounts.

(** ** createdb: the input files (structcreatedb.cpp, lines 25-50) *)

(** One entry [readdir] returns: its name [d_name], whether
    [d_type == DT_DIR], and what [opendir] gives for the entry: its own
    entries in [readdir] order, or [None] when [opendir] returns NULL. *)
#[warnings="-register-all"]
Inductive dirent : Type :=
| Dirent (d_name : string) (is_dir : bool) (opened : option (list dirent)).

Definition d_name (e : dirent) : string := let (name, _, _) := e in name.
Definition is_dir (e : dirent) : bool := let (_, dir, _) := e in dir.
Definition opened (e : dirent) : option (list dirent) := let (_, _, entries) := e in entries.

(** [dir+"/"+filename] *)
Definition path_below (dir filename : string) : string :=
  (dir ++ "/" ++ filename)%string.

(** [filename != "." && filename != ".."] fails. *)
Definition skipped (filename : string) : bool :=
  String.eqb filename "." || String.eqb filename "..".

(** The vector [dirs], its back first, each directory with what [opendir]
    will give for it; and the vector [filenames]. *)
Definition dir_stack : Type := list (string * option (list dirent)).

(** The body of the [readdir] loop, lines 37-46, for one entry of [dir]. *)
Definition readdirStep (dir : string) (st : dir_stack * list string) (e : dirent)
  : dir_stack * list string :=
  if skipped (d_name e) then st
  else if is_dir e
       then ((path_below dir (d_name e), opened e) :: fst st, snd st)
       else (fst st, snd st ++ [path_below dir (d_name e)]).

(** The loop [while(dirs.size() != 0)], lines 32-49; [fuel] bounds the number
    of directories taken off [dirs]. *)
Fixpoint expandDirs (fuel : nat) (dirs : dir_stack) (filenames : list string)
  : option (list string) :=
  match dirs with
  | [] => Some filenames
  | (dir, listing) :: rest =>
      match fuel with
      | O => None
      | S fuel' =>
          match listing with
          | None => expandDirs fuel' rest filenames
          | Some entries =>
              let st := fold_left (readdirStep dir) entries (rest, filenames) in
              expandDirs fuel' (fst st) (snd st)
          end
      end
  end.

(** Lines 25-50: the output name is the last argument, the inputs are the
    other ones; a single input that is a directory is replaced by the files
    below it.  [None]: [back()] of an empty vector, or the fuel is used up. *)
Definition inputFiles (directoryExists : string -> bool)
    (opendir : string -> option (list dirent)) (fuel : nat)
    (par_filenames : list string) : option (string * list string) :=
  match rev par_filenames with
  | [] => None
  | outputName :: others =>
      match rev others with
      | [single] =>
          if directoryExists single
          then option_map (pair outputName)
                 (expandDirs fuel [(single, opendir single)] [])
          else Some (outputName, [single])
      | filenames => Some (outputName, filenames)
      end
  end.

(** An entry the loop puts on [dirs]. *)
Definition pushed (e : dirent) : bool := negb (skipped (d_name e)) && is_dir e.

(** What the loop puts on [dirs] for the entries of [dir], in [readdir]
    order. *)
Definition pushedBelow (dir : string) (entries : list dirent) : dir_stack :=
  flat_map (fun e => if pushed e then [(path_below dir (d_name e), opened e)] else [])
           entries.

(** The entries of [dir] the loop appends to [filenames], in [readdir] order. *)
Definition filesIn (dir : string) (entries : list dirent) : list string :=
  flat_map (fun e => if skipped (d_name e) || is_dir e then []
                     else [path_below dir (d_name e)]) entries.

(** The files below the directory [e], found at the path [dir]: its own
    files, then those below its subdirectories, the last subdirectory first. *)
Fixpoint walk (dir : string) (e : dirent) : list string :=
  match e with
  | Dirent _ _ None => []
  | Dirent _ _ (Some entries) =>
      filesIn dir entries
      ++ List.concat
           (rev (map (fun e' => if pushed e' then walk (path_below dir (d_name e')) e'
                                else []) entries))
  end.

Definition walkListing (dir : string) (listing : option (list dirent)) : list string :=
  walk dir (Dirent EmptyString true listing).

(** The number of directories below [e], itself included, that the loop
    takes off [dirs]. *)
Fixpoint dirCount (e : dirent) : nat :=
  match e with
  | Dirent _ _ None => 1
  | Dirent _ _ (Some entries) =>
      S (list_sum (map (fun e' => if pushed e' then dirCount e' else 0) entries))
  end.

Definition stackCount (dirs : dir_stack) : nat :=
  list_sum (map (fun d => dirCount (Dirent EmptyString true (snd d))) dirs).

(** The directory on top of [dirs] is the input or lies below it. *)
Definition at_or_below (root dir : string) : Prop :=
  dir = root \/ exists tail, dir = (root ++ "/" ++ tail)%string.

(** A path is below [root]. *)
Definition below_root (root path : string) : Prop :=
  exists tail, path = (root ++ "/" ++ tail)%string.

(** The directories the loop takes off [dirs], each with what [opendir] gives
    for it: the input directory, and [dir/name] for every entry [name] of type
    DT_DIR, other than "." and "..", of a directory taken off before it. *)
Inductive reached (root : string) (top : option (list dirent))
  : string -> option (list dirent) -> Prop :=
| reached_root : reached root top root top
| reached_sub (dir : string) (entries : list dirent) (e : dirent) :
    reached root top dir (Some entries) ->
    In e entries ->
    pushed e = true ->
    reached root top (path_below dir (d_name e)) (opened e).

(** [path] is [dir/name] for an entry [name] that [readdir] returned for a
    directory [dir] the loop took off [dirs], the entry being neither of type
    DT_DIR nor named "." or "..". *)
Definition listed_file (root : string) (top : option (list dirent)) (path : string)
  : Prop :=
  exists dir entries e,
    reached root top dir (Some entries)
    /\ In e entries
    /\ is_dir e = false
    /\ skipped (d_name e) = false
    /\ path = path_below dir (d_name e).

(** A directory to run the expansion on: two files, a subdirectory with a
    file and a directory of its own, and a directory that cannot be opened. *)
Definition sample_tree : option (list dirent) :=
  Some [ Dirent "." true None;
         Dirent ".." true None;
         Dirent "a.pdb" false None;
         Dirent "sub" true
           (Some [ Dirent "." true None;
                   Dirent "b.cif" false None;
                   Dirent "deep" true (Some [Dirent "c.pdb" false None]) ]);
         Dirent "locked" true None;
         Dirent "z.pdb" false None ]%string.

Definition sample_opendir (path : string) : option (list dirent) :=
  if String.eqb path "db" then sample_tree else None.

Definition sample_directoryExists (path : string) : bool := String.eqb path "db".

(** ** createdb: the lookup and the source file (structcreatedb.cpp, lines 131-185) *)

Definition SIZE_MAX : Z := 2 ^ 64 - 1.

(** [DBReader<unsigned int>::LookupEntry], as far as createdb fills it. *)
Record LookupEntry : Type := MkLookupEntry {
  id : nat;
  entryName : string;
  fileNumber : Z;
}.

Section Lookup.
(** [Util::parseFastaHeader] and [FileUtil::baseName]. *)
Variable parseFastaHeader : list ascii -> string.
Variable baseName : string -> string.
Variable filenames : list string.

(** The variables of the loop and what has been written so far: the entries
    handed to [lookupEntryToBuffer] and written to the lookup file, the lines
    "fileKey \t baseName \n" of the source file, each as the key and the name,
    and the entries a warning was printed for.  Every [fwrite] succeeds
    (otherwise the command exits, see [createdb]). *)
Record lookup_files : Type := MkLookupFiles {
  prevFileKey : Z;
  globalCounter : nat;
  lookupFile : list LookupEntry;
  sourceFile : list (Z * string);
  warnings : list nat;
}.

(** The body of the loop, lines 146-174, for the header record number
    [fst rec], of key [fst (snd rec)] and data [snd (snd rec)]. *)
Definition lookupStep (st : lookup_files) (rec : nat * (Z * list ascii)) : lookup_files :=
  let fileKey := fst (snd rec) in
  let name := parseFastaHeader (snd (snd rec)) in
  MkLookupFiles
    fileKey
    (S (globalCounter st))
    (lookupFile st ++ [MkLookupEntry (globalCounter st) name fileKey])
    (if (prevFileKey st =? fileKey)%Z then sourceFile st
     else sourceFile st
          ++ [(fileKey, baseName (nth (Z.to_nat fileKey) filenames EmptyString))])
    (if String.eqb name EmptyString then warnings st ++ [fst rec] else warnings st).

(** Lines 138-175 over the records of the header database, in the order of
    their numbers. *)
Definition writeLookupFiles (headers : list (Z * list ascii)) : lookup_files :=
  fold_left lookupStep (combine (seq 0 (List.length headers)) headers)
            (MkLookupFiles SIZE_MAX 0 [] [] []).

End Lookup.

(** The keys at which a run of equal keys starts, the key before the list
    being [prev]. *)
Fixpoint run_starts (prev : Z) (keys : list Z) : list Z :=
  match keys with
  | [] => []
  | key :: rest =>
      (if (prev =? key)%Z then [] else [key]) ++ run_starts key rest
  end.

(** A key of the header database: an [unsigned int]. *)
Definition unsigned_key (key : Z) : Prop := (0 <= key < 2 ^ 32)%Z.

(** Stand-ins for [Util::parseFastaHeader] and [FileUtil::baseName], and the
    header records of three chains in two files. *)
Definition sample_parse (header : list ascii) : string := string_of_list_ascii header.
Definition sample_baseName (path : string) : string := path.
Definition sample_headers : list (Z * list ascii) :=
  [(0%Z, list_ascii_of_string "1abc_A"); (0%Z, list_ascii_of_string "1abc_B");
   (2%Z, list_ascii_of_string "2xyz_A")].

(** The header records of the two chains of "ok.pdb", the file of index 1 of
    [sample_files]. *)
Definition sample_headers_ok : list (Z * list ascii) :=
  [(1%Z, list_ascii_of_string "1abc_A"); (1%Z, list_ascii_of_string "1abc_B")].

(** The operations of [RArith] and [RLibm] read as those of [R]. *)
Ltac to_reals :=
  cbn [num RArith vx vy vz fadd fsub fmul fdiv fsqrt
       fcos fsin flog ffabs ffmin fcopysign of_int RLibm] in *;
  change (num RArith) with R in *.

(** * Properties *)

(** ** Geometry *)

(** C8: the rotation step of [calcVirtualCenter] is Rodrigues' formula
    v cos t + (axis x v) sin t + axis (axis . v) (1 - cos t), coordinate by
    coordinate and operation by operation; this holds in [double] arithmetic as
    well as over the reals, and in particular for a unit axis. *)
Theorem rotate_is_rodrigues :
  forall (A : Arith) (M : Libm A) (v axis : Vec3 A) (theta : A),
    rotate M v axis theta = rodrigues M v axis theta.
Proof.
  intros A M [x y z] [kx ky kz] theta.
  unfold rotate, rodrigues, add, scale, cross, dot; cbn [vx vy vz].
  reflexivity.
Qed.

Section RealGeometry.
Local Open Scope R_scope.

Lemma sqr_as_product (x : R) : x ^ 2 = x * x.
Proof. ring. Qed.

Lemma norm_is_unit (v : Vec3 RArith) : norm v = FeatureSpec.unit v.
Proof.
  destruct v as [x y z].
  unfold norm, FeatureSpec.unit, FeatureSpec.norm2.
  cbn [vx vy vz fadd fmul fdiv fsqrt RArith].
  rewrite !sqr_as_product. reflexivity.
Qed.

Lemma sub_is_vsub (a b : Vec3 RArith) : sub a b = FeatureSpec.vsub a b.
Proof. reflexivity. Qed.

Lemma dot_is_vdot (a b : Vec3 RArith) : dot a b = FeatureSpec.vdot a b.
Proof. reflexivity. Qed.

Lemma calcDistanceBetween_is_dist (a b : Vec3 RArith) :
  calcDistanceBetween a b = FeatureSpec.dist a b.
Proof.
  destruct a as [ax ay az], b as [bx by' bz].
  unfold calcDistanceBetween, FeatureSpec.dist, FeatureSpec.norm2, FeatureSpec.vsub.
  cbn [vx vy vz fadd fsub fmul fsqrt RArith].
  rewrite !sqr_as_product. reflexivity.
Qed.

(** With a unit axis the axis itself is left in place. *)
Lemma rotate_fixes_axis (k : Vec3 RArith) (theta : R) :
  dot k k = 1 -> rotate RLibm k k theta = k.
Proof.
  destruct k as [kx ky kz]. unfold dot; cbn [vx vy vz]; cbn. intros Hk.
  unfold rotate, add, scale, cross, dot; cbn.
  rewrite Hk. f_equal; ring.
Qed.

(** With a unit axis lengths are preserved. *)
Lemma rotate_preserves_length (v k : Vec3 RArith) (theta : R) :
  dot k k = 1 -> dot (rotate RLibm v k theta) (rotate RLibm v k theta) = dot v v.
Proof.
  destruct v as [x y z], k as [kx ky kz].
  unfold rotate, add, scale, cross, dot; cbn [vx vy vz].
  cbn [fadd fsub fmul RArith fcos fsin of_int RLibm].
  intros Hk.
  pose proof (sin2_cos2 theta) as Hsc. unfold Rsqr in Hsc.
  set (c := cos theta) in *. set (s := sin theta) in *.
  nsatz.
Qed.

(** [copysign] of a magnitude by an integer is multiplication by its sign;
    for the integer zero the magnitude has to be zero. *)
Lemma Rcopysign_sign (x : R) (z : Z) :
  0 <= x -> (z = 0%Z -> x = 0) -> Rcopysign x (IZR z) = FeatureSpec.sign z * x.
Proof.
  intros Hx Hzero. unfold Rcopysign, FeatureSpec.sign.
  rewrite (Rabs_pos_eq x Hx).
  destruct (Rlt_dec (IZR z) 0) as [Hneg | Hnonneg].
  - apply lt_IZR in Hneg. rewrite Z.sgn_neg by assumption. lra.
  - destruct (Z.eq_dec z 0) as [Hz | Hz].
    + rewrite (Hzero Hz), Hz. cbn. lra.
    + assert (Hpos : (0 < z)%Z).
      { apply Rnot_lt_le in Hnonneg. apply le_IZR in Hnonneg. lia. }
      rewrite Z.sgn_pos by assumption. lra.
Qed.

End RealGeometry.

(** ** The feature table *)

Section FeatureTable.
Local Open Scope R_scope.

Lemma at_index_in_range (ca : list (Vec3 RArith)) (k : Z) :
  (0 <= k < Z.of_nat (List.length ca))%Z ->
  at_index ca k = Some (FeatureSpec.Ca ca k).
Proof.
  intros [Hlo Hhi]. unfold at_index, FeatureSpec.Ca.
  destruct (Z.ltb_spec k 0) as [Hneg | _]; [lia |].
  apply nth_error_nth'. unfold FeatureSpec.V. lia.
Qed.

Lemma clipped_separation (z : Z) :
  Rcopysign (Rmin (Rabs (IZR z)) (IZR 4)) (IZR z)
  = FeatureSpec.sign z * Rmin (IZR (Z.abs z)) 4.
Proof.
  rewrite <- abs_IZR.
  apply Rcopysign_sign.
  - apply Rmin_glb; [apply IZR_le; lia | lra].
  - intros ->. cbn. apply Rmin_left. lra.
Qed.

Lemma ln_nonneg (y : R) : 1 <= y -> 0 <= ln y.
Proof.
  intros [Hlt | <-].
  - left. rewrite <- ln_1. apply ln_increasing; lra.
  - rewrite ln_1. lra.
Qed.

Lemma log_separation (z : Z) :
  Rcopysign (ln (Rabs (IZR z) + IZR 1)) (IZR z)
  = FeatureSpec.sign z * ln (IZR (Z.abs z) + 1).
Proof.
  rewrite <- abs_IZR.
  apply Rcopysign_sign.
  - apply ln_nonneg.
    assert (0 <= IZR (Z.abs z)) by (apply IZR_le; lia). lra.
  - intros ->. cbn. rewrite Rplus_0_l. apply ln_1.
Qed.

(** C2: for a pair (i, j) whose neighbours i-1, i+1, j-1, j+1 are in range,
    [calcFeatures] returns the ten features of section 4.4 in their
    positional order: the seven cosines u1.u2, u3.u4, u1.u5, u3.u5, u1.u4,
    u2.u3, u1.u3, then dist(Ca[i], Ca[j]), then sign(j-i) min(|j-i|, 4), then
    sign(j-i) ln(|j-i| + 1). *)
Theorem calcFeatures_table (ca : list (Vec3 RArith)) (i j : Z) :
  (1 <= i)%Z -> (i + 1 < Z.of_nat (List.length ca))%Z ->
  (1 <= j)%Z -> (j + 1 < Z.of_nat (List.length ca))%Z ->
  calcFeatures RLibm ca i j = Some (FeatureSpec.features_at ca i j)
  /\ List.length (FeatureSpec.features_at ca i j) = Alphabet3Di.FEATURE_CNT.
Proof.
  intros Hi1 Hi2 Hj1 Hj2. split; [| reflexivity].
  unfold calcFeatures.
  rewrite !at_index_in_range by lia.
  unfold FeatureSpec.features_at, FeatureSpec.features.
  rewrite !sub_is_vsub, !norm_is_unit, !dot_is_vdot, calcDistanceBetween_is_dist.
  cbn [fcopysign ffmin ffabs flog of_int RLibm fadd RArith].
  rewrite clipped_separation, log_separation.
  reflexivity.
Qed.

End FeatureTable.

Lemma calcFeatures_table_witness :
  calcFeatures RLibm square_chain 1 2 = Some (FeatureSpec.features_at square_chain 1 2)
  /\ List.length (FeatureSpec.features_at square_chain 1 2) = Alphabet3Di.FEATURE_CNT.
Proof.
  apply (@calcFeatures_table square_chain 1 2); cbn; lia.
Defined.

(** ** Degenerate geometry *)

(** C3: on the zero vector [norm] does not fail: it divides by [len = 0] and
    returns a vector of three NaN. *)
Theorem norm_zero_vector : norm zero_vector = nan_vector.
Proof. vm_compute. reflexivity. Qed.

(** The NaN reaches the features: with Ca[i] = Ca[i-1] the operand [u1] of
    [features[0] = dot(u1, u2)] is [norm] of the zero vector. *)
Lemma coincident_atoms_feature_nan :
  let ca_im := MkVec3 DoubleArith 1%float 2%float 3%float in
  let ca_i := MkVec3 DoubleArith 1%float 2%float 3%float in
  let ca_ip := MkVec3 DoubleArith 4%float 2%float 3%float in
  dot (norm (sub ca_i ca_im)) (norm (sub ca_ip ca_i)) = nan.
Proof. vm_compute. reflexivity. Qed.

(** ** The state alphabet and the constants *)



(** ** Partner selection *)

Section PartnerSelectorProperties.
Variable A : Arith.
Variable fle : A -> A -> bool.
Variable w : A.
Variable f : nat -> A.
Variable L : nat.
Variable cb : nat -> Vec3 A.

Hypothesis fle_total : forall a b, fle a b = true \/ fle b a = true.
Hypothesis fle_trans : forall a b c, fle a b = true -> fle b c = true -> fle a c = true.

Local Abbreviation cost_ := (cost w f cb).
Local Abbreviation prefer_ := (prefer fle w f cb).
Local Abbreviation scan_ := (scan fle w f cb).
Local Abbreviation candidates_ := (candidates L).









End PartnerSelectorProperties.

(** Seen from residue 3 of [grid_cb], with no weight on the sequence penalty:
    residue 1 costs 9, and residues 2, 4 and 5 cost 5 each; residue 5 is two
    positions away, residues 2 and 4 one position. *)
Example grid_costs :
  map (cost (A:=IntArith) 0%Z separation grid_cb 3) (candidates 7 3)
  = [9; 5; 5; 5]%Z
  /\ map (seqsep 3) (candidates 7 3) = [2; 1; 1; 2].
Proof. split; vm_compute; reflexivity. Qed.


(** ** Endpoints and short chains *)

Section DriverProperties.
Variable A : Arith.
Variable M : Libm A.
Variable fle : A -> A -> bool.
Variable w : A.
Variable f : nat -> A.
Variable INVALID : Z.
Variable embed : list A -> list A.
Variable quantise : list A -> nat.
Variable effectiveCb : list (Vec3 A) -> list (Vec3 A) -> list (Vec3 A) ->
                       list (Vec3 A) -> nat -> Vec3 A.

Local Abbreviation states :=
  (structure2states M fle w f INVALID embed quantise effectiveCb).

Lemma structure2states_length (ca n c cb : list (Vec3 A)) (len : nat) :
  List.length (states ca n c cb len) = len.
Proof. unfold structure2states. rewrite length_map, length_seq. reflexivity. Qed.

Lemma structure2states_nth (ca n c cb : list (Vec3 A)) (len i : nat) (d : Z) :
  i < len ->
  nth i (states ca n c cb len) d
  = state_of M INVALID embed quantise ca i
      (findResiduePartners fle w f len (effectiveCb ca n c cb) i).
Proof.
  intros Hi. unfold structure2states.
  rewrite (nth_indep _ d (state_of M INVALID embed quantise ca 0
             (findResiduePartners fle w f len (effectiveCb ca n c cb) 0)))
    by (rewrite length_map, length_seq; exact Hi).
  rewrite (map_nth (fun i => state_of M INVALID embed quantise ca i
             (findResiduePartners fle w f len (effectiveCb ca n c cb) i))).
  rewrite seq_nth by exact Hi. reflexivity.
Qed.

Lemma endpoint_invalid (ca : list (Vec3 A)) (cb : nat -> Vec3 A) (len i : nat) :
  i = 0 \/ i = len - 1 ->
  state_of M INVALID embed quantise ca i (findResiduePartners fle w f len cb i) = INVALID.
Proof.
  intros Hi. unfold findResiduePartners.
  replace ((i =? 0) || (i =? len - 1)) with true; [reflexivity |].
  symmetry. apply orb_true_iff.
  destruct Hi as [-> | ->]; [left | right]; apply Nat.eqb_refl.
Qed.


(** C6: the output has one code per residue; for a chain of length L >= 3
    the codes of residues 0 and L-1 are INVALID; for L < 3 every one of the
    L codes is INVALID (the call returns a result in every case). *)
Theorem endpoints_and_short_chains (ca n c cb : list (Vec3 A)) (len : nat) :
  List.length (states ca n c cb len) = len
  /\ (3 <= len ->
      nth 0 (states ca n c cb len) 0%Z = INVALID
      /\ nth (len - 1) (states ca n c cb len) 0%Z = INVALID)
  /\ (len < 3 -> states ca n c cb len = repeat INVALID len).
Proof.
  split; [apply structure2states_length |]. split.
  - intros Hlen. rewrite !structure2states_nth by lia.
    split; apply endpoint_invalid; [left | right]; reflexivity.
  - intros Hlen. unfold structure2states.
    destruct len as [| [| [| len]]]; [reflexivity | reflexivity | reflexivity | lia].
Qed.

End DriverProperties.



Lemma endpoints_and_short_chains_witness :
  (nth 0 (structure2states RLibm Rleb 1%R INR Alphabet3Di.INVALID_STATE
            (fun x => x) (fun _ => 0) present_cb
            square_chain [] [] square_chain 4) 0%Z = Alphabet3Di.INVALID_STATE
   /\ nth 3 (structure2states RLibm Rleb 1%R INR Alphabet3Di.INVALID_STATE
               (fun x => x) (fun _ => 0) present_cb
               square_chain [] [] square_chain 4) 0%Z = Alphabet3Di.INVALID_STATE)
  /\ structure2states RLibm Rleb 1%R INR Alphabet3Di.INVALID_STATE
       (fun x => x) (fun _ => 0) present_cb
       (firstn 2 square_chain) [] [] (firstn 2 square_chain) 2
     = [Alphabet3Di.INVALID_STATE; Alphabet3Di.INVALID_STATE].
Proof.
  split.
  - apply (endpoints_and_short_chains RLibm Rleb 1%R INR Alphabet3Di.INVALID_STATE
             (fun x => x) (fun _ => 0) present_cb square_chain [] [] square_chain 4).
    lia.
  - apply (endpoints_and_short_chains RLibm Rleb 1%R INR Alphabet3Di.INVALID_STATE
             (fun x => x) (fun _ => 0) present_cb
             (firstn 2 square_chain) [] [] (firstn 2 square_chain) 2).
    lia.
Defined.

(** ** createdb: what is written for a file *)

Lemma record_of_last {T : Type} (w : DBWriter T) (data : list T) (key : nat) :
  record_of key (writeData w data key) = Some data.
Proof.
  unfold writeData. induction w as [| [k d] w IH]; cbn [record_of app].
  - rewrite Nat.eqb_refl. reflexivity.
  - rewrite IH. reflexivity.
Qed.

Lemma keys_writeData {T : Type} (w : DBWriter T) (data : list T) (key : nat) :
  keys (writeData w data key) = keys w ++ [key].
Proof. unfold keys, writeData. rewrite map_app. reflexivity. Qed.

Section CreateDbProperties.
Variable A : Arith.
Variable float32 : Type.
Variable to_float : A -> float32.
Variable load : string -> option (GemmiWrapper A).
Variable structure2states3Di :
  list (Vec3 A) -> list (Vec3 A) -> list (Vec3 A) -> list (Vec3 A) -> nat -> list Z.
Variable num2aa : Z -> ascii.

Local Abbreviation State := (state float32).
Local Abbreviation chain3Di_ := (chain3Di structure2states3Di num2aa).
Local Abbreviation chainCa_ := (chainCa to_float).
Local Abbreviation processChain_ := (processChain to_float structure2states3Di num2aa).
Local Abbreviation processChains_ := (processChains to_float structure2states3Di num2aa).
Local Abbreviation processFile_ := (processFile to_float load structure2states3Di num2aa).
Local Abbreviation processFiles_ := (processFiles to_float load structure2states3Di num2aa).
Local Abbreviation accumulated3Di_ := (accumulated3Di structure2states3Di num2aa).
Local Abbreviation accumulatedCa_ := (accumulatedCa to_float).
Local Abbreviation failed_ := (failed load).

Lemma accumulated3Di_S (s : GemmiWrapper A) (k : nat) :
  accumulated3Di_ s (S k) = accumulated3Di_ s k ++ chain3Di_ s k.
Proof.
  unfold accumulated3Di. rewrite seq_S, map_app, concat_app. cbn [map List.concat plus].
  rewrite app_nil_r. reflexivity.
Qed.

Lemma accumulatedCa_S (s : GemmiWrapper A) (k : nat) :
  accumulatedCa_ s (S k) = accumulatedCa_ s k ++ chainCa_ s k.
Proof.
  unfold accumulatedCa. rewrite seq_S, map_app, concat_app. cbn [map List.concat plus].
  rewrite app_nil_r. reflexivity.
Qed.

Lemma processChains_S (s : GemmiWrapper A) (i : nat) (st : State) (k : nat) :
  processChains_ s i st (S k) = processChain_ s i (processChains_ s i st k) k.
Proof.
  unfold processChains. rewrite seq_S, fold_left_app. reflexivity.
Qed.

(** The buffers after [k] chains, starting from cleared buffers. *)
Lemma processChains_buffers (s : GemmiWrapper A) (i : nat) (st : State) (k : nat) :
  alphabet3di (processChains_ s i (clearBuffers st) k) = accumulated3Di_ s k
  /\ camol (processChains_ s i (clearBuffers st) k) = accumulatedCa_ s k.
Proof.
  induction k as [| k [IH3 IHc]].
  - split; reflexivity.
  - rewrite processChains_S, accumulated3Di_S, accumulatedCa_S.
    unfold processChain; cbn [alphabet3di camol].
    rewrite IH3, IHc. split; reflexivity.
Qed.




(** ** createdb: files that do not load *)

Lemma processChains_keys (s : GemmiWrapper A) (i : nat) (st : State) (k : nat) :
  keys (torsiondbw (processChains_ s i st k)) = keys (torsiondbw st) ++ repeat i k
  /\ keys (hdbw (processChains_ s i st k)) = keys (hdbw st) ++ repeat i k
  /\ keys (cadbw (processChains_ s i st k)) = keys (cadbw st) ++ repeat i k
  /\ keys (aadbw (processChains_ s i st k)) = keys (aadbw st) ++ repeat i k
  /\ incorrectFiles (processChains_ s i st k) = incorrectFiles st.
Proof.
  induction k as [| k (IHt & IHh & IHc & IHa & IHn)].
  - cbn [repeat]. rewrite !app_nil_r. repeat split; reflexivity.
  - rewrite processChains_S.
    unfold processChain; cbn [torsiondbw hdbw cadbw aadbw incorrectFiles].
    rewrite !keys_writeData, IHt, IHh, IHc, IHa, IHn.
    assert (Hk : forall l : list nat, (l ++ repeat i k) ++ [i] = l ++ repeat i (S k)).
    { intros l. rewrite <- app_assoc. f_equal.
      change [i] with (repeat i 1). rewrite <- repeat_app.
      f_equal. lia. }
    rewrite !Hk. repeat split; reflexivity.
Qed.

Lemma written_keys_processChains (s : GemmiWrapper A) (i : nat) (st : State) (k key : nat) :
  In key (written_keys (processChains_ s i st k)) ->
  In key (written_keys st) \/ key = i.
Proof.
  unfold written_keys.
  destruct (processChains_keys s i st k) as (Ht & Hh & Hc & Ha & _).
  rewrite Ht, Hh, Hc, Ha, !in_app_iff.
  intros H.
  repeat match goal with
         | H : _ \/ _ |- _ => destruct H as [H | H]
         | H : In _ (repeat _ _) |- _ => apply repeat_spec in H
         end; auto 6.
Qed.

(** After the files [0 .. k-1]: the counter is the number of those that did
    not load, and every key written is that of a file that loaded. *)
Lemma processFiles_invariant (filenames : list string) (k : nat) :
  let st := fold_left (processFile_ filenames) (seq 0 k) (initial float32) in
  incorrectFiles st = List.length (filter (failed_ filenames) (seq 0 k))
  /\ forall key, In key (written_keys st) -> key < k /\ failed_ filenames key = false.
Proof.
  induction k as [| k [IHn IHkeys]]; cbn zeta.
  - split; [reflexivity | intros key []].
  - cbn zeta in IHn, IHkeys.
    rewrite seq_S, fold_left_app, filter_app, length_app. cbn [plus fold_left filter].
    set (st := fold_left (processFile_ filenames) (seq 0 k) (initial float32)) in *.
    assert (Hfk : failed_ filenames k
                  = match load (nth k filenames EmptyString) with
                    | None => true
                    | Some _ => false
                    end) by reflexivity.
    rewrite Hfk. clear Hfk. unfold processFile.
    destruct (load (nth k filenames EmptyString)) as [s |] eqn:Hload.
    + destruct (processChains_keys s k (clearBuffers st) (List.length (chain s)))
        as (_ & _ & _ & _ & Hn).
      split.
      * rewrite Hn. cbn [clearBuffers incorrectFiles List.length]. lia.
      * intros key Hkey. apply written_keys_processChains in Hkey.
        destruct Hkey as [Hold | ->].
        -- destruct (IHkeys key Hold). split; [lia | assumption].
        -- split; [lia |]. unfold failed. rewrite Hload. reflexivity.
    + cbn [clearBuffers incorrectFiles alphabet3di camol torsiondbw hdbw cadbw aadbw
             List.length].
      split; [lia |].
      intros key Hkey. destruct (IHkeys key Hkey). split; [lia | assumption].
Qed.

(** C10: a file that does not load is skipped, nothing being written under
    its key, and counted; the count is reported, and the command returns
    [EXIT_SUCCESS] however many files failed (the writing of the lookup
    files, when asked for, succeeding). *)
Theorem failed_files_skipped_and_counted
    (writeLookup lookup_io_ok : bool) (filenames : list string) :
  writeLookup = false \/ lookup_io_ok = true ->
  exists st : State,
    createdb to_float load structure2states3Di num2aa writeLookup lookup_io_ok filenames
    = (Returned EXIT_SUCCESS, st,
       Some (List.length (filter (failed_ filenames) (seq 0 (List.length filenames))),
             List.length filenames))
    /\ incorrectFiles st
       = List.length (filter (failed_ filenames) (seq 0 (List.length filenames)))
    /\ forall i, failed_ filenames i = true -> ~ In i (written_keys st).
Proof.
  intros Hio.
  exists (processFiles_ filenames).
  destruct (processFiles_invariant filenames (List.length filenames)) as [Hn Hkeys].
  cbn zeta in Hn, Hkeys. fold (processFiles_ filenames) in Hn, Hkeys.
  split; [| split].
  - unfold createdb, report. rewrite Hn.
    replace (writeLookup && negb lookup_io_ok) with false; [reflexivity |].
    destruct Hio as [-> | ->]; [reflexivity | rewrite andb_false_r; reflexivity].
  - exact Hn.
  - intros i Hfailed Hin. destruct (Hkeys i Hin) as [_ Hloaded]. congruence.
Qed.

End CreateDbProperties.

(** The sample directory: the first file is counted, the second gives one
    3Di record per chain, the second holding both chains. *)
Example createdb_sample :
  let st := processFiles same_float sample_load sample_states sample_num2aa sample_files in
  incorrectFiles st = 1
  /\ torsiondbw st
     = [(1, list_ascii_of_string "DD" ++ [newline]);
        (1, list_ascii_of_string "DD" ++ [newline] ++ list_ascii_of_string "D" ++ [newline])]
  /\ cadbw st
     = [(1, [1; 4; 2; 5; 3; 6]%float);
        (1, [1; 4; 2; 5; 3; 6; 7; 8; 9]%float)]
  /\ keys (hdbw st) = [1; 1]
  /\ keys (aadbw st) = [1; 1].
Proof. vm_compute. repeat split; reflexivity. Qed.


Lemma failed_files_skipped_and_counted_witness :
  exists st : state float,
    createdb same_float sample_load sample_states sample_num2aa true true sample_files
    = (Returned EXIT_SUCCESS, st, Some (1, 2))
    /\ incorrectFiles st = 1
    /\ forall i, failed sample_load sample_files i = true -> ~ In i (written_keys st).
Proof.
  apply (@failed_files_skipped_and_counted DoubleArith float same_float sample_load
           sample_states sample_num2aa true true sample_files).
  right. reflexivity.
Defined.

(** ** Translation of the input *)

Section Translation.
Local Open Scope R_scope.

Lemma sub_translate (a b t : Vec3 RArith) : sub (add a t) (add b t) = sub a b.
Proof.
  destruct a, b, t. unfold sub, add; cbn [vx vy vz fadd fsub RArith].
  f_equal; ring.
Qed.

Lemma calcDistanceBetween_translate (a b t : Vec3 RArith) :
  calcDistanceBetween (add a t) (add b t) = calcDistanceBetween a b.
Proof.
  destruct a, b, t. unfold calcDistanceBetween, add; cbn [vx vy vz fadd fsub fmul fsqrt RArith].
  f_equal. ring.
Qed.

Lemma at_index_translate (A : Arith) (t : Vec3 A) (ca : list (Vec3 A)) (k : Z) :
  at_index (translate t ca) k = option_map (fun a => add a t) (at_index ca k).
Proof.
  unfold at_index, translate. destruct (k <? 0)%Z; [reflexivity |].
  apply nth_error_map.
Qed.

(** X19: over the real numbers the features do not change when every Ca is
    moved by the same vector. *)
Lemma calcFeatures_translate_real (t : Vec3 RArith) (ca : list (Vec3 RArith)) (i j : Z) :
  calcFeatures RLibm (translate t ca) i j = calcFeatures RLibm ca i j.
Proof.
  unfold calcFeatures. rewrite !at_index_translate.
  destruct (at_index ca (i - 1)), (at_index ca i), (at_index ca (i + 1)),
    (at_index ca (j - 1)), (at_index ca j), (at_index ca (j + 1));
    cbn [option_map]; try reflexivity.
  rewrite !sub_translate, calcDistanceBetween_translate. reflexivity.
Qed.

End Translation.

(** ** Translation of the input and the state pipeline *)

Section SelectorOfDistances.
Variable A : Arith.
Variable fle : A -> A -> bool.
Variable w : A.
Variable f : nat -> A.
Variable L : nat.
Variables cb cb' : nat -> Vec3 A.

Hypothesis same_distances :
  forall i j, i < L -> j < L ->
    calcDistanceBetween (cb' i) (cb' j) = calcDistanceBetween (cb i) (cb j).

Lemma cost_same (i j : nat) : i < L -> j < L -> cost w f cb' i j = cost w f cb i j.
Proof. intros Hi Hj. unfold cost. rewrite same_distances by assumption. reflexivity. Qed.

Lemma scan_same (i : nat) (js : list nat) :
  i < L -> Forall (fun j => j < L) js ->
  forall best, best < L -> scan fle w f cb' i best js = scan fle w f cb i best js.
Proof.
  intros Hi Hjs. induction Hjs as [| k js Hk _ IH]; intros best Hbest; [reflexivity |].
  cbn [scan]. unfold prefer. rewrite !cost_same by assumption.
  apply IH. destruct (_ && _); assumption.
Qed.

Lemma candidates_in_range (i : nat) : Forall (fun j => j < L) (candidates L i).
Proof.
  apply Forall_forall. intros j Hj. unfold candidates in Hj.
  apply filter_In in Hj. destruct Hj as [Hj _]. apply in_seq in Hj. lia.
Qed.

Lemma findResiduePartners_same (i : nat) :
  i < L -> findResiduePartners fle w f L cb' i = findResiduePartners fle w f L cb i.
Proof.
  intros Hi. unfold findResiduePartners, findPartner.
  pose proof (candidates_in_range i) as Hrange.
  destruct (candidates L i) as [| j js]; [reflexivity |].
  inversion Hrange as [| j' js' Hj Hjs]; subst.
  rewrite scan_same by assumption. reflexivity.
Qed.

End SelectorOfDistances.

(** Over the real numbers, and with an EffectiveCb that moves with the atoms
    (as the Cb that is present does), the modelled pipeline gives the same
    states when every atom is moved by the same vector.  (In [double] the
    features themselves can change, see [translate_double_not_exact] below.) *)
Lemma structure2states_translate_real
    (fle : R -> R -> bool) (w : R) (f : nat -> R) (INVALID : Z)
    (embed : list R -> list R) (quantise : list R -> nat)
    (effectiveCb : list (Vec3 RArith) -> list (Vec3 RArith) -> list (Vec3 RArith) ->
                   list (Vec3 RArith) -> nat -> Vec3 RArith)
    (t : Vec3 RArith) (ca n c cb : list (Vec3 RArith)) (len : nat) :
  (forall i, i < len ->
     effectiveCb (translate t ca) (translate t n) (translate t c) (translate t cb) i
     = add (effectiveCb ca n c cb i) t) ->
  structure2states RLibm fle w f INVALID embed quantise effectiveCb
    (translate t ca) (translate t n) (translate t c) (translate t cb) len
  = structure2states RLibm fle w f INVALID embed quantise effectiveCb ca n c cb len.
Proof.
  intros Hcb. unfold structure2states. apply map_ext_in. intros i Hi.
  apply in_seq in Hi.
  rewrite (@findResiduePartners_same RArith fle w f len (effectiveCb ca n c cb)
             (effectiveCb (translate t ca) (translate t n) (translate t c)
                          (translate t cb))).
  - unfold state_of.
    destruct (findResiduePartners (A:=RArith) fle w f len (effectiveCb ca n c cb) i)
      as [[j |] [|]]; try reflexivity.
    unfold calcFeatures. rewrite !at_index_translate.
    destruct (at_index ca (Z.of_nat i - 1)), (at_index ca (Z.of_nat i)),
      (at_index ca (Z.of_nat i + 1)), (at_index ca (Z.of_nat j - 1)),
      (at_index ca (Z.of_nat j)), (at_index ca (Z.of_nat j + 1));
      cbn [option_map]; try reflexivity.
    rewrite !sub_translate, calcDistanceBetween_translate. reflexivity.
  - intros a b Ha Hb. rewrite !Hcb by assumption.
    apply calcDistanceBetween_translate.
  - lia.
Qed.

(** In [double] they do: moved far enough, two neighbouring atoms one unit
    apart fall on the same point, and the unit vector between them, (1, 0, 0)
    before, is NaN after. *)
Lemma translate_double_not_exact :
  let a := MkVec3 DoubleArith 1%float 0%float 0%float in
  let b := MkVec3 DoubleArith 0%float 0%float 0%float in
  norm (sub a b) = a
  /\ norm (sub (add a far_away) (add b far_away)) = nan_vector.
Proof. vm_compute. split; reflexivity. Qed.

(** * Further properties *)

(** ** Unit vectors and distances, in exact arithmetic *)

Section RealVectors.
Local Open Scope R_scope.

Lemma sqlen_nonneg (v : Vec3 RArith) : 0 <= dot v v.
Proof.
  destruct v as [x y z]. unfold dot; to_reals. nra.
Qed.

Lemma sqlen_pos (v : Vec3 RArith) : nonzero v -> 0 < dot v v.
Proof.
  destruct v as [x y z]. unfold nonzero, dot; to_reals.
  intros [H | [H | H]]; nra.
Qed.

Lemma norm_components (v : Vec3 RArith) :
  norm v = MkVec3 RArith (vx v / sqrt (dot v v)) (vy v / sqrt (dot v v))
                         (vz v / sqrt (dot v v)).
Proof. reflexivity. Qed.

Lemma norm_dot (u v : Vec3 RArith) :
  dot (norm u) (norm v) = dot u v / (sqrt (dot u u) * sqrt (dot v v)).
Proof.
  destruct u as [a b c], v as [x y z].
  unfold norm, dot; to_reals.
  unfold Rdiv. rewrite Rinv_mult. ring.
Qed.

Lemma norm_dot_self (v : Vec3 RArith) : nonzero v -> dot (norm v) (norm v) = 1.
Proof.
  intros Hv. rewrite norm_dot.
  rewrite sqrt_sqrt by apply sqlen_nonneg.
  pose proof (sqlen_pos Hv). to_reals. field. lra.
Qed.

Lemma cauchy_schwarz (u v : Vec3 RArith) :
  dot u v * dot u v <= dot u u * dot v v.
Proof.
  destruct u as [a b c], v as [x y z].
  unfold dot; to_reals.
  assert (H : (a * a + b * b + c * c) * (x * x + y * y + z * z)
              - (a * x + b * y + c * z) * (a * x + b * y + c * z)
              = (a * y - b * x) * (a * y - b * x)
                + (a * z - c * x) * (a * z - c * x)
                + (b * z - c * y) * (b * z - c * y)) by ring.
  pose proof (Rle_0_sqr (a * y - b * x)) as H1.
  pose proof (Rle_0_sqr (a * z - c * x)) as H2.
  pose proof (Rle_0_sqr (b * z - c * y)) as H3.
  unfold Rsqr in H1, H2, H3. lra.
Qed.

Lemma unit_dot_bounded (u v : Vec3 RArith) :
  dot u u = 1 -> dot v v = 1 -> -1 <= dot u v <= 1.
Proof.
  intros Hu Hv. pose proof (cauchy_schwarz u v) as H. rewrite Hu, Hv in H.
  split; nra.
Qed.

Lemma norm_scale (v : Vec3 RArith) (s : R) : 0 < s -> norm (scale v s) = norm v.
Proof.
  intros Hs. destruct v as [x y z]. unfold norm, scale. to_reals.
  replace (x * s * (x * s) + y * s * (y * s) + z * s * (z * s))
    with (s * s * (x * x + y * y + z * z)) by ring.
  rewrite sqrt_mult by nra. rewrite sqrt_square by lra.
  unfold Rdiv. rewrite Rinv_mult.
  assert (Hinv : s * / s = 1) by (apply Rinv_r; lra).
  set (r := / sqrt (x * x + y * y + z * z)).
  f_equal.
  - replace (x * s * (/ s * r)) with (x * (s * / s) * r) by ring. rewrite Hinv. ring.
  - replace (y * s * (/ s * r)) with (y * (s * / s) * r) by ring. rewrite Hinv. ring.
  - replace (z * s * (/ s * r)) with (z * (s * / s) * r) by ring. rewrite Hinv. ring.
Qed.

Lemma norm_as_scale (v : Vec3 RArith) : norm v = scale v (/ sqrt (dot v v)).
Proof. reflexivity. Qed.

(** X1: for a vector that is not zero, [norm] returns a vector of length 1
    with the same direction: the result is the argument multiplied by the
    positive number 1 / |v|.  It is unchanged when the argument is multiplied
    by a positive number, and [norm] leaves it as it is. *)
Theorem norm_unit_length (v : Vec3 RArith) :
  nonzero v ->
  dot (norm v) (norm v) = 1
  /\ 0 < / sqrt (dot v v)
  /\ norm v = scale v (/ sqrt (dot v v))
  /\ (forall s, 0 < s -> norm (scale v s) = norm v)
  /\ norm (norm v) = norm v.
Proof.
  intros Hv.
  assert (Hpos : 0 < / sqrt (dot v v))
    by (apply Rinv_0_lt_compat, sqrt_lt_R0, sqlen_pos; exact Hv).
  split; [apply norm_dot_self; exact Hv |].
  split; [exact Hpos |].
  split; [apply norm_as_scale |].
  split; [intros s Hs; apply norm_scale; exact Hs |].
  rewrite (norm_as_scale v) at 1. apply norm_scale. exact Hpos.
Qed.

Lemma sum_squares_zero (x y z : R) :
  x * x + y * y + z * z = 0 -> x = 0 /\ y = 0 /\ z = 0.
Proof.
  intros H.
  pose proof (Rle_0_sqr x) as Hx. pose proof (Rle_0_sqr y) as Hy.
  pose proof (Rle_0_sqr z) as Hz. unfold Rsqr in Hx, Hy, Hz.
  assert (Hx0 : x * x = 0) by lra. assert (Hy0 : y * y = 0) by lra.
  assert (Hz0 : z * z = 0) by lra.
  repeat split; apply Rsqr_0_uniq; assumption.
Qed.

Lemma calcDistanceBetween_as_dot (a b : Vec3 RArith) :
  calcDistanceBetween a b = sqrt (dot (sub a b) (sub a b)).
Proof. reflexivity. Qed.

Lemma calcDistanceBetween_sym (a b : Vec3 RArith) :
  calcDistanceBetween a b = calcDistanceBetween b a.
Proof.
  destruct a as [a1 a2 a3], b as [b1 b2 b3]. unfold calcDistanceBetween. to_reals.
  f_equal. ring.
Qed.

(** X2: the distance is symmetric, never negative, and zero exactly between a
    point and itself. *)
Theorem calcDistanceBetween_separates (a b : Vec3 RArith) :
  calcDistanceBetween a b = calcDistanceBetween b a
  /\ 0 <= calcDistanceBetween a b
  /\ (calcDistanceBetween a b = 0 <-> a = b).
Proof.
  split; [apply calcDistanceBetween_sym |].
  split; [apply sqrt_pos |].
  rewrite calcDistanceBetween_as_dot. split.
  - intros H. apply sqrt_eq_0 in H; [| apply sqlen_nonneg].
    destruct a as [a1 a2 a3], b as [b1 b2 b3].
    unfold dot, sub in H. to_reals.
    apply sum_squares_zero in H. destruct H as (H1 & H2 & H3).
    f_equal; lra.
  - intros ->. destruct b as [b1 b2 b3]. unfold dot, sub. to_reals.
    replace ((b1 - b1) * (b1 - b1) + (b2 - b2) * (b2 - b2) + (b3 - b3) * (b3 - b3))
      with 0 by ring.
    apply sqrt_0.
Qed.

Lemma sqrt_sum_le (p q r : R) :
  0 <= p -> 0 <= q -> r <= p + q + 2 * sqrt (p * q) -> sqrt r <= sqrt p + sqrt q.
Proof.
  intros Hp Hq Hr.
  pose proof (sqrt_pos p) as Hsp. pose proof (sqrt_pos q) as Hsq.
  rewrite <- (sqrt_square (sqrt p + sqrt q)) by lra.
  apply sqrt_le_1_alt.
  rewrite sqrt_mult in Hr by assumption.
  pose proof (sqrt_sqrt p Hp). pose proof (sqrt_sqrt q Hq). nra.
Qed.

(** X3: the distance obeys the triangle inequality. *)
Theorem calcDistanceBetween_triangle (a b c : Vec3 RArith) :
  calcDistanceBetween a c <= calcDistanceBetween a b + calcDistanceBetween b c.
Proof.
  rewrite !calcDistanceBetween_as_dot.
  set (u := sub a b). set (v := sub b c).
  assert (Hsum : dot (sub a c) (sub a c) = dot u u + dot v v + 2 * dot u v).
  { subst u v. destruct a as [a1 a2 a3], b as [b1 b2 b3], c as [c1 c2 c3].
    unfold dot, sub. to_reals. ring. }
  apply sqrt_sum_le; [apply sqlen_nonneg | apply sqlen_nonneg |].
  rewrite Hsum. to_reals.
  assert (Hcs : dot u v <= sqrt (dot u u * dot v v)).
  { destruct (Rle_dec (dot u v) 0) as [Hneg | Hpos].
    - pose proof (sqrt_pos (dot u u * dot v v)). to_reals. lra.
    - apply Rnot_le_lt in Hpos.
      rewrite <- (sqrt_square (dot u v)) by (to_reals; lra).
      apply sqrt_le_1_alt, cauchy_schwarz. }
  to_reals. lra.
Qed.

End RealVectors.

(** ** Rotation, in exact arithmetic *)

Section RealRotation.
Local Open Scope R_scope.
Variable k : Vec3 RArith.
Hypothesis unit_axis : dot k k = 1.

Lemma rotate_dot (u v : Vec3 RArith) (theta : R) :
  dot (rotate RLibm u k theta) (rotate RLibm v k theta) = dot u v.
Proof.
  destruct u as [a b c], v as [x y z], k as [kx ky kz].
  unfold rotate, add, scale, cross, dot in *. to_reals.
  pose proof (sin2_cos2 theta) as Hsc. unfold Rsqr in Hsc.
  set (co := cos theta) in *. set (si := sin theta) in *.
  nsatz.
Qed.

Lemma rotate_axis_component (v : Vec3 RArith) (theta : R) :
  dot k (rotate RLibm v k theta) = dot k v.
Proof.
  destruct v as [x y z], k as [kx ky kz].
  unfold rotate, add, scale, cross, dot in *. to_reals.
  set (co := cos theta) in *. set (si := sin theta) in *.
  nsatz.
Qed.

Lemma rotate_sub (a b : Vec3 RArith) (theta : R) :
  sub (rotate RLibm a k theta) (rotate RLibm b k theta) = rotate RLibm (sub a b) k theta.
Proof.
  destruct a as [a1 a2 a3], b as [b1 b2 b3], k as [kx ky kz].
  unfold rotate, add, sub, scale, cross, dot. to_reals. f_equal; ring.
Qed.

Lemma rotate_scale (v : Vec3 RArith) (s theta : R) :
  rotate RLibm (scale v s) k theta = scale (rotate RLibm v k theta) s.
Proof.
  destruct v as [x y z], k as [kx ky kz].
  unfold rotate, add, scale, cross, dot. to_reals. f_equal; ring.
Qed.

Lemma rotate_norm (v : Vec3 RArith) (theta : R) :
  norm (rotate RLibm v k theta) = rotate RLibm (norm v) k theta.
Proof.
  rewrite (norm_as_scale (rotate RLibm v k theta)), rotate_dot.
  rewrite (norm_as_scale v), rotate_scale. reflexivity.
Qed.

Lemma rotate_distance (a b : Vec3 RArith) (theta : R) :
  calcDistanceBetween (rotate RLibm a k theta) (rotate RLibm b k theta)
  = calcDistanceBetween a b.
Proof.
  rewrite !calcDistanceBetween_as_dot, rotate_sub, rotate_dot. reflexivity.
Qed.

Lemma rotate_zero (v : Vec3 RArith) : rotate RLibm v k 0 = v.
Proof.
  destruct v as [x y z], k as [kx ky kz].
  unfold rotate, add, scale, cross, dot. to_reals.
  rewrite cos_0, sin_0. f_equal; ring.
Qed.

Lemma rotate_add (v : Vec3 RArith) (a b : R) :
  rotate RLibm (rotate RLibm v k a) k b = rotate RLibm v k (a + b).
Proof.
  destruct v as [x y z], k as [kx ky kz].
  unfold rotate, add, scale, cross, dot in *. to_reals.
  rewrite cos_plus, sin_plus.
  set (ca := cos a). set (sa := sin a). set (cb := cos b). set (sb := sin b).
  f_equal; nsatz.
Qed.

(** X4: about a unit axis the rotation step is an isometry that keeps the
    component along the axis: scalar products, lengths and distances are
    unchanged. *)
Theorem rotate_isometry (u v : Vec3 RArith) (theta : R) :
  dot (rotate RLibm u k theta) (rotate RLibm v k theta) = dot u v
  /\ calcDistanceBetween (rotate RLibm u k theta) (rotate RLibm v k theta)
     = calcDistanceBetween u v
  /\ dot k (rotate RLibm v k theta) = dot k v.
Proof.
  split; [apply rotate_dot |].
  split; [apply rotate_distance | apply rotate_axis_component].
Qed.

(** X5: about a unit axis the rotation by the angle 0 changes nothing, two
    rotations in a row are the rotation by the sum of the angles, and the
    rotation by the opposite angle undoes a rotation. *)
Theorem rotate_angles_add (v : Vec3 RArith) (a b : R) :
  rotate RLibm v k 0 = v
  /\ rotate RLibm (rotate RLibm v k a) k b = rotate RLibm v k (a + b)
  /\ rotate RLibm (rotate RLibm v k a) k (- a) = v.
Proof.
  split; [apply rotate_zero |]. split; [apply rotate_add |].
  rewrite rotate_add. replace (a + - a) with 0 by ring. apply rotate_zero.
Qed.

End RealRotation.

Section RotationWitnesses.
Local Open Scope R_scope.

Lemma axis_z_unit : dot axis_z axis_z = 1.
Proof. unfold dot, axis_z. to_reals. ring. Qed.

Lemma rotate_isometry_witness :
  dot (rotate RLibm point_p axis_z 1) (rotate RLibm point_q axis_z 1) = dot point_p point_q
  /\ calcDistanceBetween (rotate RLibm point_p axis_z 1) (rotate RLibm point_q axis_z 1)
     = calcDistanceBetween point_p point_q
  /\ dot axis_z (rotate RLibm point_q axis_z 1) = dot axis_z point_q.
Proof.
  apply (@rotate_isometry axis_z axis_z_unit point_p point_q 1%R).
Defined.

Lemma rotate_angles_add_witness :
  rotate RLibm point_p axis_z 0 = point_p
  /\ rotate RLibm (rotate RLibm point_p axis_z 1) axis_z 2
     = rotate RLibm point_p axis_z (1 + 2)
  /\ rotate RLibm (rotate RLibm point_p axis_z 1) axis_z (- (1)) = point_p.
Proof.
  apply (@rotate_angles_add axis_z axis_z_unit point_p 1%R 2%R).
Defined.

Lemma norm_unit_length_witness :
  dot (norm point_p) (norm point_p) = 1%R
  /\ (0 < / sqrt (dot point_p point_p))%R
  /\ norm point_p = scale point_p (/ sqrt (dot point_p point_p))%R
  /\ (forall s, (0 < s)%R -> norm (scale point_p s) = norm point_p)
  /\ norm (norm point_p) = norm point_p.
Proof.
  apply (@norm_unit_length point_p).
  left. unfold point_p. cbn. lra.
Defined.

End RotationWitnesses.

(** ** The direction of the virtual center *)

Section Tetrahedron.
Local Open Scope R_scope.

Lemma tetrahedron_identity (a b c p q r x y z : R) :
  a * a + b * b + c * c = 1 -> p * p + q * q + r * r = 1 -> x * x + y * y + z * z = 1 ->
  a * p + b * q + c * r = 0 -> a * x + b * y + c * z = 0 -> p * x + q * y + r * z = 0 ->
  let c1 := IZR (-1) / IZR 3 in
  let c2 := IZR (-1) / IZR 2 in
  let c3 := sqrt (IZR 3) / IZR 2 in
  let c4 := sqrt (IZR 8) / IZR 3 in
  let wx := a * c1 + (p * c2 - x * c3) * c4 in
  let wy := b * c1 + (q * c2 - y * c3) * c4 in
  let wz := c * c1 + (r * c2 - z * c3) * c4 in
  wx * wx + wy * wy + wz * wz = 1 /\ a * wx + b * wy + c * wz = - 1 / 3.
Proof.
  intros H1 H2 H3 H4 H5 H6 c1 c2 c3 c4 wx wy wz.
  assert (Hs3 : sqrt 3 * sqrt 3 = 3) by (apply sqrt_sqrt; lra).
  assert (Hs8 : sqrt 8 * sqrt 8 = 8) by (apply sqrt_sqrt; lra).
  split.
  - replace (wx * wx + wy * wy + wz * wz) with
      (c1 * c1 * (a * a + b * b + c * c)
       + c4 * c4 * (c2 * c2 * (p * p + q * q + r * r)
                    + c3 * c3 * (x * x + y * y + z * z)
                    - 2 * c2 * c3 * (p * x + q * y + r * z))
       + 2 * c1 * c4 * (c2 * (a * p + b * q + c * r) - c3 * (a * x + b * y + c * z)))
      by (subst wx wy wz; ring).
    rewrite H1, H2, H3, H4, H5, H6. subst c1 c2 c3 c4.
    replace (sqrt 8 / 3 * (sqrt 8 / 3)) with (sqrt 8 * sqrt 8 / 9) by field.
    replace (sqrt 3 / 2 * (sqrt 3 / 2)) with (sqrt 3 * sqrt 3 / 4) by field.
    rewrite Hs3, Hs8. field.
  - replace (a * wx + b * wy + c * wz) with
      (c1 * (a * a + b * b + c * c)
       + c4 * (c2 * (a * p + b * q + c * r) - c3 * (a * x + b * y + c * z)))
      by (subst wx wy wz; ring).
    rewrite H1, H4, H5. subst c1. field.
Qed.

(** X6: for [v1], [u1], [u2] of length 1 and perpendicular to each other,
    [v4] has length 1 and makes with [v1] the tetrahedral angle, of cosine
    -1/3. *)
Theorem v4_tetrahedral (v1 u1 u2 : Vec3 RArith) :
  dot v1 v1 = 1 -> dot u1 u1 = 1 -> dot u2 u2 = 1 ->
  dot v1 u1 = 0 -> dot v1 u2 = 0 -> dot u1 u2 = 0 ->
  dot (v4 RLibm v1 u1 u2) (v4 RLibm v1 u1 u2) = 1
  /\ dot v1 (v4 RLibm v1 u1 u2) = - 1 / 3.
Proof.
  destruct v1 as [a b c], u1 as [p q r], u2 as [x y z].
  unfold v4, add, sub, scale, dot. to_reals.
  intros H1 H2 H3 H4 H5 H6.
  apply tetrahedron_identity; assumption.
Qed.

End Tetrahedron.

Lemma v4_tetrahedral_witness :
  dot (v4 RLibm axis_x axis_y axis_z) (v4 RLibm axis_x axis_y axis_z) = 1%R
  /\ dot axis_x (v4 RLibm axis_x axis_y axis_z) = (- 1 / 3)%R.
Proof.
  apply (@v4_tetrahedral axis_x axis_y axis_z);
    unfold dot, axis_x, axis_y, axis_z; to_reals; ring.
Defined.

(** ** The features under a change of coordinates, in exact arithmetic *)

Lemma at_index_map (A : Arith) (g : Vec3 A -> Vec3 A) (ca : list (Vec3 A)) (k : Z) :
  at_index (map g ca) k = option_map g (at_index ca k).
Proof.
  unfold at_index. destruct (k <? 0)%Z; [reflexivity |]. apply nth_error_map.
Qed.

Section FeaturesRotated.
Local Open Scope R_scope.
Variable k : Vec3 RArith.
Hypothesis unit_axis : dot k k = 1.

(** X7: the features do not change when every Ca is turned about a unit axis
    by the rotation step of the code. *)
Theorem calcFeatures_rotate_real (theta : R) (ca : list (Vec3 RArith)) (i j : Z) :
  calcFeatures RLibm (rotate_chain k theta ca) i j = calcFeatures RLibm ca i j.
Proof.
  unfold calcFeatures, rotate_chain. rewrite !at_index_map.
  destruct (at_index ca (i - 1)), (at_index ca i), (at_index ca (i + 1)),
    (at_index ca (j - 1)), (at_index ca j), (at_index ca (j + 1));
    cbn [option_map]; try reflexivity.
  rewrite !(rotate_sub unit_axis), !(rotate_norm unit_axis), !(rotate_dot unit_axis),
    (rotate_distance unit_axis).
  reflexivity.
Qed.

End FeaturesRotated.

Section FeaturesScaled.
Local Open Scope R_scope.

Lemma sub_scale (a b : Vec3 RArith) (s : R) :
  sub (scale a s) (scale b s) = scale (sub a b) s.
Proof.
  destruct a, b. unfold sub, scale. to_reals. f_equal; ring.
Qed.

Lemma calcDistanceBetween_scale (a b : Vec3 RArith) (s : R) :
  0 < s -> calcDistanceBetween (scale a s) (scale b s) = s * calcDistanceBetween a b.
Proof.
  intros Hs. destruct a as [a1 a2 a3], b as [b1 b2 b3].
  unfold calcDistanceBetween, scale. to_reals.
  replace ((a1 * s - b1 * s) * (a1 * s - b1 * s) + (a2 * s - b2 * s) * (a2 * s - b2 * s)
           + (a3 * s - b3 * s) * (a3 * s - b3 * s))
    with (s * s * ((a1 - b1) * (a1 - b1) + (a2 - b2) * (a2 - b2) + (a3 - b3) * (a3 - b3)))
    by ring.
  set (d1 := a1 - b1). set (d2 := a2 - b2). set (d3 := a3 - b3).
  rewrite sqrt_mult by nra. rewrite sqrt_square by lra. reflexivity.
Qed.

(** X8: when every coordinate is multiplied by the same positive number [s]
    (a change of length unit), the cosines and the two sequence terms are
    unchanged and the distance in slot 7 is multiplied by [s]. *)
Theorem calcFeatures_scale_real (s : R) (ca : list (Vec3 RArith)) (i j : Z) :
  0 < s ->
  calcFeatures RLibm (scale_chain s ca) i j
  = option_map (scale_slot7 s) (calcFeatures RLibm ca i j).
Proof.
  intros Hs. unfold calcFeatures, scale_chain. rewrite !at_index_map.
  destruct (at_index ca (i - 1)), (at_index ca i), (at_index ca (i + 1)),
    (at_index ca (j - 1)), (at_index ca j), (at_index ca (j + 1));
    cbn [option_map]; try reflexivity.
  rewrite !sub_scale, !(norm_scale _ Hs), (calcDistanceBetween_scale _ _ Hs).
  reflexivity.
Qed.

End FeaturesScaled.

Section FeaturesSwapped.
Local Open Scope R_scope.

Lemma dot_comm (u v : Vec3 RArith) : dot u v = dot v u.
Proof. destruct u, v. unfold dot. to_reals. ring. Qed.

Lemma norm_sub_flip (u a b : Vec3 RArith) :
  dot u (norm (sub a b)) = - dot u (norm (sub b a)).
Proof.
  destruct u as [x y z], a as [a1 a2 a3], b as [b1 b2 b3].
  unfold dot, norm, sub. to_reals.
  replace ((b1 - a1) * (b1 - a1) + (b2 - a2) * (b2 - a2) + (b3 - a3) * (b3 - a3))
    with ((a1 - b1) * (a1 - b1) + (a2 - b2) * (a2 - b2) + (a3 - b3) * (a3 - b3)) by ring.
  unfold Rdiv. ring.
Qed.

Lemma clipped_separation_flip (i j : Z) :
  Rcopysign (Rmin (Rabs (IZR (i - j))) (IZR 4)) (IZR (i - j))
  = - Rcopysign (Rmin (Rabs (IZR (j - i))) (IZR 4)) (IZR (j - i)).
Proof.
  rewrite !clipped_separation. unfold FeatureSpec.sign.
  replace (i - j)%Z with (- (j - i))%Z by ring.
  rewrite Z.sgn_opp, Z.abs_opp, opp_IZR. ring.
Qed.

Lemma log_separation_flip (i j : Z) :
  Rcopysign (ln (Rabs (IZR (i - j)) + IZR 1)) (IZR (i - j))
  = - Rcopysign (ln (Rabs (IZR (j - i)) + IZR 1)) (IZR (j - i)).
Proof.
  rewrite !log_separation. unfold FeatureSpec.sign.
  replace (i - j)%Z with (- (j - i))%Z by ring.
  rewrite Z.sgn_opp, Z.abs_opp, opp_IZR. ring.
Qed.

(** X9: the features of the pair (j, i) are those of the pair (i, j) with
    slots 0 and 1 exchanged, slots 4 and 5 exchanged, slots 2 and 3 exchanged
    and negated, and the two sequence terms negated; slots 6 and 7 are the
    same. *)
Theorem calcFeatures_swap (ca : list (Vec3 RArith)) (i j : Z) :
  calcFeatures RLibm ca j i = option_map swap_features (calcFeatures RLibm ca i j).
Proof.
  unfold calcFeatures.
  destruct (at_index ca (i - 1)) as [ca_im |], (at_index ca i) as [ca_i |],
    (at_index ca (i + 1)) as [ca_ip |], (at_index ca (j - 1)) as [ca_jm |],
    (at_index ca (j)) as [ca_j |], (at_index ca (j + 1)) as [ca_jp |];
    cbn [option_map]; try reflexivity.
  cbn [swap_features]. to_reals.
  rewrite (norm_sub_flip (norm (sub ca_j ca_jm)) ca_i ca_j).
  rewrite (norm_sub_flip (norm (sub ca_i ca_im)) ca_i ca_j).
  rewrite (dot_comm (norm (sub ca_j ca_jm)) (norm (sub ca_ip ca_i))).
  rewrite (dot_comm (norm (sub ca_jp ca_j)) (norm (sub ca_i ca_im))).
  rewrite (dot_comm (norm (sub ca_j ca_jm)) (norm (sub ca_i ca_im))).
  rewrite (calcDistanceBetween_sym ca_j ca_i).
  rewrite (clipped_separation_flip i j), (log_separation_flip i j).
  reflexivity.
Qed.

End FeaturesSwapped.

Section FeaturesBounded.
Local Open Scope R_scope.

Lemma sub_nonzero (a b : Vec3 RArith) : a <> b -> nonzero (sub a b).
Proof.
  destruct a as [a1 a2 a3], b as [b1 b2 b3]. intros Hab.
  unfold nonzero, sub. to_reals.
  destruct (Req_dec a1 b1) as [H1 | H1]; [| left; lra].
  destruct (Req_dec a2 b2) as [H2 | H2]; [| right; left; lra].
  destruct (Req_dec a3 b3) as [H3 | H3]; [| right; right; lra].
  exfalso. apply Hab. f_equal; assumption.
Qed.

Lemma cosine_bounded (a b c d : Vec3 RArith) :
  a <> b -> c <> d -> -1 <= dot (norm (sub a b)) (norm (sub c d)) <= 1.
Proof.
  intros Hab Hcd. apply unit_dot_bounded; apply norm_dot_self, sub_nonzero; assumption.
Qed.

(** X10: for a pair in range whose atoms are distinct where a direction is
    taken between them (Ca[i-1], Ca[i], Ca[i+1] in a row, Ca[j-1], Ca[j],
    Ca[j+1] in a row, and Ca[i], Ca[j]), the first seven features are cosines:
    each lies between -1 and 1; the distance in slot 7 is positive. *)
Theorem calcFeatures_cosines (ca : list (Vec3 RArith)) (i j : Z) :
  (1 <= i)%Z -> (i + 1 < Z.of_nat (List.length ca))%Z ->
  (1 <= j)%Z -> (j + 1 < Z.of_nat (List.length ca))%Z ->
  FeatureSpec.Ca ca i <> FeatureSpec.Ca ca (i - 1) ->
  FeatureSpec.Ca ca (i + 1) <> FeatureSpec.Ca ca i ->
  FeatureSpec.Ca ca j <> FeatureSpec.Ca ca (j - 1) ->
  FeatureSpec.Ca ca (j + 1) <> FeatureSpec.Ca ca j ->
  FeatureSpec.Ca ca j <> FeatureSpec.Ca ca i ->
  exists x,
    calcFeatures RLibm ca i j = Some x
    /\ (forall slot, (slot < 7)%nat -> -1 <= nth slot x 0 <= 1)
    /\ 0 < nth 7 x 0.
Proof.
  intros Hi1 Hi2 Hj1 Hj2 D1 D2 D3 D4 D5.
  unfold calcFeatures. rewrite !at_index_in_range by lia.
  eexists. split; [reflexivity |]. split.
  - intros slot Hslot.
    do 7 (destruct slot as [| slot]; [cbn [nth]; apply cosine_bounded; assumption |]).
    lia.
  - cbn [nth]. rewrite calcDistanceBetween_as_dot.
    apply sqrt_lt_R0, sqlen_pos, sub_nonzero. intros H. apply D5. symmetry. exact H.
Qed.

End FeaturesBounded.

Section FeatureWitnesses.
Local Open Scope R_scope.

Lemma calcFeatures_rotate_real_witness :
  calcFeatures RLibm (rotate_chain axis_z 1 square_chain) 1 2
  = calcFeatures RLibm square_chain 1 2.
Proof.
  apply (@calcFeatures_rotate_real axis_z axis_z_unit 1 square_chain 1%Z 2%Z).
Defined.

Lemma calcFeatures_scale_real_witness :
  calcFeatures RLibm (scale_chain 10 square_chain) 1 2
  = option_map (scale_slot7 10) (calcFeatures RLibm square_chain 1 2).
Proof.
  apply (@calcFeatures_scale_real 10 square_chain 1%Z 2%Z). lra.
Defined.

Lemma square_corner_distinct (p q : Z) :
  (0 <= p < 4)%Z -> (0 <= q < 4)%Z -> p <> q ->
  FeatureSpec.Ca square_chain p <> FeatureSpec.Ca square_chain q.
Proof.
  intros Hp Hq Hpq.
  assert (Hcases : forall z, (0 <= z < 4)%Z -> z = 0%Z \/ z = 1%Z \/ z = 2%Z \/ z = 3%Z)
    by (intros; lia).
  destruct (Hcases p Hp) as [-> | [-> | [-> | ->]]];
    destruct (Hcases q Hq) as [-> | [-> | [-> | ->]]];
    try (exfalso; apply Hpq; reflexivity);
    cbn; intros H; injection H; intros; lra.
Qed.

Lemma calcFeatures_cosines_witness :
  exists x,
    calcFeatures RLibm square_chain 1 2 = Some x
    /\ (forall slot, (slot < 7)%nat -> -1 <= nth slot x 0 <= 1)
    /\ 0 < nth 7 x 0.
Proof.
  apply (@calcFeatures_cosines square_chain 1 2);
    try (cbn; lia); apply square_corner_distinct; lia.
Defined.

End FeatureWitnesses.

(** ** createdb: the four databases side by side *)

Section CreateDbRecords.
Variable A : Arith.
Variable float32 : Type.
Variable to_float : A -> float32.
Variable load : string -> option (GemmiWrapper A).
Variable structure2states3Di :
  list (Vec3 A) -> list (Vec3 A) -> list (Vec3 A) -> list (Vec3 A) -> nat -> list Z.
Variable num2aa : Z -> ascii.

Local Abbreviation run_chain := (processChain to_float structure2states3Di num2aa).
Local Abbreviation run_chains := (processChains to_float structure2states3Di num2aa).
Local Abbreviation run_file := (processFile to_float load structure2states3Di num2aa).
Local Abbreviation run_files := (processFiles to_float load structure2states3Di num2aa).
Local Abbreviation letters3Di := (accumulated3Di structure2states3Di num2aa).

Lemma keys_per_chain_S (filenames : list string) (k : nat) :
  keys_per_chain load filenames (S k)
  = keys_per_chain load filenames k ++ repeat k (chainCount load filenames k).
Proof.
  unfold keys_per_chain. rewrite seq_S, flat_map_app. cbn [flat_map plus].
  rewrite app_nil_r. reflexivity.
Qed.

Lemma processFile_keys (filenames : list string) (st : state float32) (i : nat) :
  keys (torsiondbw (run_file filenames st i))
  = keys (torsiondbw st) ++ repeat i (chainCount load filenames i)
  /\ keys (hdbw (run_file filenames st i))
     = keys (hdbw st) ++ repeat i (chainCount load filenames i)
  /\ keys (cadbw (run_file filenames st i))
     = keys (cadbw st) ++ repeat i (chainCount load filenames i)
  /\ keys (aadbw (run_file filenames st i))
     = keys (aadbw st) ++ repeat i (chainCount load filenames i).
Proof.
  unfold processFile, chainCount.
  destruct (load (nth i filenames EmptyString)) as [s |].
  - destruct (processChains_keys to_float structure2states3Di num2aa s i
                (clearBuffers st) (List.length (chain s))) as (Ht & Hh & Hc & Ha & _).
    rewrite Ht, Hh, Hc, Ha. repeat split; reflexivity.
  - cbn [repeat torsiondbw hdbw cadbw aadbw clearBuffers]. rewrite !app_nil_r.
    repeat split; reflexivity.
Qed.

Lemma processFiles_keys (filenames : list string) :
  keys (torsiondbw (run_files filenames))
  = keys_per_chain load filenames (List.length filenames)
  /\ keys (hdbw (run_files filenames))
     = keys_per_chain load filenames (List.length filenames)
  /\ keys (cadbw (run_files filenames))
     = keys_per_chain load filenames (List.length filenames)
  /\ keys (aadbw (run_files filenames))
     = keys_per_chain load filenames (List.length filenames).
Proof.
  unfold processFiles.
  induction (List.length filenames) as [| k (IHt & IHh & IHc & IHa)].
  - repeat split; reflexivity.
  - rewrite seq_S, fold_left_app. cbn [plus fold_left].
    destruct (processFile_keys filenames
                (fold_left (run_file filenames) (seq 0 k) (initial float32)) k)
      as (Ht & Hh & Hc & Ha).
    rewrite Ht, Hh, Hc, Ha, IHt, IHh, IHc, IHa, keys_per_chain_S.
    repeat split; reflexivity.
Qed.

Lemma count_occ_repeat (key k count : nat) :
  count_occ Nat.eq_dec (repeat k count) key = if key =? k then count else 0.
Proof.
  induction count as [| count IH]; cbn [repeat count_occ].
  - destruct (key =? k); reflexivity.
  - destruct (Nat.eq_dec k key) as [-> | Hne].
    + rewrite IH, Nat.eqb_refl. reflexivity.
    + rewrite IH. destruct (Nat.eqb_spec key k) as [-> | _]; [contradiction | reflexivity].
Qed.

Lemma keys_per_chain_count (filenames : list string) (k key : nat) :
  count_occ Nat.eq_dec (keys_per_chain load filenames k) key
  = if key <? k then chainCount load filenames key else 0.
Proof.
  induction k as [| k IH]; [reflexivity |].
  rewrite keys_per_chain_S, count_occ_app, IH, count_occ_repeat.
  destruct (Nat.eqb_spec key k) as [-> | Hne].
  - rewrite Nat.ltb_irrefl. replace (k <? S k) with true by (symmetry; apply Nat.ltb_lt; lia).
    reflexivity.
  - destruct (Nat.ltb_spec key k) as [Hlt | Hge].
    + replace (key <? S k) with true by (symmetry; apply Nat.ltb_lt; lia). lia.
    + replace (key <? S k) with false by (symmetry; apply Nat.ltb_ge; lia). reflexivity.
Qed.

(** X11: into each of the four databases createdb writes, under the index
    [i] of a file, as many records as the file has chains: none for a file
    that does not load or has no chain, and none under a key that is not the
    index of an input file. *)
Theorem one_record_per_chain (filenames : list string) (i : nat) :
  let st := run_files filenames in
  let count := if i <? List.length filenames then chainCount load filenames i else 0 in
  count_occ Nat.eq_dec (keys (torsiondbw st)) i = count
  /\ count_occ Nat.eq_dec (keys (hdbw st)) i = count
  /\ count_occ Nat.eq_dec (keys (cadbw st)) i = count
  /\ count_occ Nat.eq_dec (keys (aadbw st)) i = count.
Proof.
  cbn zeta. destruct (processFiles_keys filenames) as (Ht & Hh & Hc & Ha).
  rewrite Ht, Hh, Hc, Ha, keys_per_chain_count. repeat split; reflexivity.
Qed.

Lemma accumulated3Di_length (s : GemmiWrapper A) (k : nat) :
  List.length (letters3Di s k) = list_sum (map (fun ch => chainLen s ch + 1) (seq 0 k)).
Proof.
  induction k as [| k IH]; [reflexivity |].
  rewrite (accumulated3Di_S structure2states3Di num2aa), length_app, IH.
  rewrite seq_S, map_app, list_sum_app. cbn [map list_sum fold_right plus].
  unfold chain3Di. rewrite length_app, length_map, length_seq. cbn [List.length]. lia.
Qed.

Lemma list_sum_at_least (g : nat -> nat) (k : nat) :
  (forall ch, 1 <= g ch) -> k <= list_sum (map g (seq 0 k)).
Proof.
  intros Hg. induction k as [| k IH]; [reflexivity |].
  rewrite seq_S, map_app, list_sum_app. cbn [map list_sum fold_right plus].
  specialize (Hg k). lia.
Qed.

(** X12: after the iteration of chain [c] of a file with key [i], the 3Di
    record found under [i] has one letter and one newline for every residue
    of the chains 0 to c, whereas the amino-acid record found under [i] is
    that of chain [c] alone; from the second chain on the 3Di record is
    longer than the amino-acid record written with it. *)
Theorem threeDi_record_outgrows_sequence
    (s : GemmiWrapper A) (i : nat) (st : state float32) (c0 : nat) :
  let after := run_chains s i (clearBuffers st) (S c0) in
  exists r3Di raa,
    record_of i (torsiondbw after) = Some r3Di
    /\ record_of i (aadbw after) = Some raa
    /\ List.length r3Di = list_sum (map (fun ch => chainLen s ch + 1) (seq 0 (S c0)))
    /\ List.length raa <= chainLen s c0 + 1
    /\ (1 <= c0 -> List.length raa < List.length r3Di).
Proof.
  cbn zeta. rewrite (processChains_S to_float structure2states3Di num2aa).
  destruct (processChains_buffers to_float structure2states3Di num2aa s i st c0) as [H3 _].
  set (before := run_chains s i (clearBuffers st) c0) in *.
  exists (letters3Di s (S c0)),
    (slice (ami s) (fst (chainBounds s c0)) (chainLen s c0) ++ [newline]).
  assert (Hraa : List.length (slice (ami s) (fst (chainBounds s c0)) (chainLen s c0)
                               ++ [newline]) <= chainLen s c0 + 1).
  { rewrite length_app. cbn [List.length]. unfold slice.
    pose proof (firstn_le_length (chainLen s c0) (skipn (fst (chainBounds s c0)) (ami s))).
    lia. }
  split; [| split; [| split; [| split]]].
  - unfold processChain; cbn [torsiondbw]. rewrite H3.
    rewrite <- (accumulated3Di_S structure2states3Di num2aa). apply record_of_last.
  - unfold processChain; cbn [aadbw]. apply record_of_last.
  - apply accumulated3Di_length.
  - exact Hraa.
  - intros Hc. rewrite accumulated3Di_length.
    rewrite seq_S, map_app, list_sum_app. cbn [map list_sum fold_right plus].
    assert (Hsum : c0 <= list_sum (map (fun ch => chainLen s ch + 1) (seq 0 c0)))
      by (apply list_sum_at_least; intros ch; lia).
    lia.
Qed.

End CreateDbRecords.

Lemma threeDi_record_outgrows_sequence_witness :
  exists r3Di raa,
    record_of 1 (torsiondbw (processChains same_float sample_states sample_num2aa
                               sample_structure 1 (clearBuffers (initial float)) 2))
    = Some r3Di
    /\ record_of 1 (aadbw (processChains same_float sample_states sample_num2aa
                             sample_structure 1 (clearBuffers (initial float)) 2))
       = Some raa
    /\ List.length r3Di
       = list_sum (map (fun ch => chainLen sample_structure ch + 1) (seq 0 2))
    /\ List.length raa <= chainLen sample_structure 1 + 1
    /\ (1 <= 1 -> List.length raa < List.length r3Di).
Proof.
  apply (@threeDi_record_outgrows_sequence DoubleArith float same_float sample_states
           sample_num2aa sample_structure 1 (initial float) 1).
Defined.

(** ** createdb: the files below a directory *)

Section DirectoryExpansion.

Lemma walk_below (dir : string) (entries : list dirent) :
  List.concat (rev (map (fun e' => if pushed e' then walk (path_below dir (d_name e')) e'
                                   else []) entries))
  = List.concat (map (fun d => walkListing (fst d) (snd d))
                     (rev (pushedBelow dir entries))).
Proof.
  induction entries as [| e entries IH]; [reflexivity |].
  cbn [map rev pushedBelow flat_map].
  rewrite rev_app_distr, map_app, !concat_app, IH. unfold pushedBelow. f_equal.
  cbn [List.concat]. rewrite app_nil_r.
  destruct (pushed e); [| reflexivity].
  cbn [rev map List.concat app fst snd]. rewrite app_nil_r.
  unfold walkListing. destruct e as [name dir' [listing |]]; reflexivity.
Qed.

Lemma walkListing_some (dir : string) (entries : list dirent) :
  walkListing dir (Some entries)
  = filesIn dir entries
    ++ List.concat (map (fun d => walkListing (fst d) (snd d))
                        (rev (pushedBelow dir entries))).
Proof.
  rewrite <- walk_below. reflexivity.
Qed.

Lemma list_sum_cons (x : nat) (l : list nat) : list_sum (x :: l) = x + list_sum l.
Proof. reflexivity. Qed.

Lemma list_sum_rev (l : list nat) : list_sum (rev l) = list_sum l.
Proof.
  induction l as [| x l IH]; [reflexivity |].
  cbn [rev]. rewrite list_sum_app, IH, !list_sum_cons. cbn [list_sum fold_right]. lia.
Qed.

Lemma dirCount_listing (name : string) (dir : bool) (listing : option (list dirent)) :
  dirCount (Dirent name dir listing) = dirCount (Dirent EmptyString true listing).
Proof. destruct listing; reflexivity. Qed.

Lemma stackCount_pushedBelow (dir : string) (entries : list dirent) :
  stackCount (pushedBelow dir entries)
  = list_sum (map (fun e' => if pushed e' then dirCount e' else 0) entries).
Proof.
  unfold stackCount.
  induction entries as [| e entries IH]; [reflexivity |].
  cbn [pushedBelow flat_map map]. rewrite map_app, list_sum_app, list_sum_cons.
  unfold pushedBelow in IH. rewrite IH. f_equal.
  destruct (pushed e); [| reflexivity].
  cbn [map snd]. rewrite list_sum_cons. cbn [list_sum fold_right].
  destruct e as [name dir' listing]. cbn [opened].
  rewrite (dirCount_listing name dir' listing). lia.
Qed.

Lemma stackCount_app (d1 d2 : dir_stack) :
  stackCount (d1 ++ d2) = stackCount d1 + stackCount d2.
Proof. unfold stackCount. rewrite map_app, list_sum_app. reflexivity. Qed.

Lemma stackCount_rev (dirs : dir_stack) : stackCount (rev dirs) = stackCount dirs.
Proof. unfold stackCount. rewrite map_rev. apply list_sum_rev. Qed.

Lemma stackCount_cons (dir : string) (listing : option (list dirent)) (rest : dir_stack) :
  stackCount ((dir, listing) :: rest)
  = dirCount (Dirent EmptyString true listing) + stackCount rest.
Proof. reflexivity. Qed.

Lemma stackCount_some (dir : string) (entries : list dirent) (rest : dir_stack) :
  stackCount ((dir, Some entries) :: rest)
  = S (stackCount (rev (pushedBelow dir entries) ++ rest)).
Proof.
  rewrite stackCount_cons, stackCount_app, stackCount_rev, stackCount_pushedBelow.
  reflexivity.
Qed.

Lemma readdir_loop (dir : string) (entries : list dirent) (dirs : dir_stack)
    (filenames : list string) :
  fold_left (readdirStep dir) entries (dirs, filenames)
  = (rev (pushedBelow dir entries) ++ dirs, filenames ++ filesIn dir entries).
Proof.
  revert dirs filenames.
  induction entries as [| e entries IH]; intros dirs filenames.
  - cbn. rewrite app_nil_r. reflexivity.
  - cbn [fold_left pushedBelow filesIn flat_map]. unfold readdirStep at 2, pushed.
    destruct (skipped (d_name e)); cbn [negb andb orb fst snd].
    + rewrite IH. reflexivity.
    + destruct (is_dir e); rewrite IH; cbn [rev app].
      * rewrite <- !app_assoc. reflexivity.
      * rewrite <- !app_assoc. reflexivity.
Qed.

Lemma expandDirs_walk (fuel : nat) :
  forall (dirs : dir_stack) (filenames : list string),
    stackCount dirs <= fuel ->
    expandDirs fuel dirs filenames
    = Some (filenames
            ++ List.concat (map (fun d => walkListing (fst d) (snd d)) dirs)).
Proof.
  induction fuel as [| fuel IH]; intros dirs filenames Hfuel.
  - destruct dirs as [| [dir listing] rest].
    + cbn. rewrite app_nil_r. reflexivity.
    + exfalso. rewrite stackCount_cons in Hfuel.
      destruct listing; cbn [dirCount] in Hfuel; lia.
  - destruct dirs as [| [dir [entries |]] rest].
    + cbn. rewrite app_nil_r. reflexivity.
    + cbn [expandDirs]. rewrite readdir_loop. cbn [fst snd].
      rewrite stackCount_some in Hfuel.
      rewrite IH by lia.
      cbn [map List.concat fst snd]. rewrite walkListing_some, map_app, concat_app.
      rewrite <- !app_assoc. reflexivity.
    + cbn [expandDirs]. rewrite IH.
      * reflexivity.
      * rewrite stackCount_cons in Hfuel. cbn [dirCount] in Hfuel. lia.
Qed.

Lemma append_assoc (a b c : string) : ((a ++ b) ++ c = a ++ (b ++ c))%string.
Proof.
  induction a as [| ch a IH]; [reflexivity |].
  cbn [append]. rewrite IH. reflexivity.
Qed.

(** X13: when the only input is an existing directory, the file list is the
    files of that directory in [readdir] order followed by the files below
    its subdirectories, the subdirectory read last first, and so on below
    them; entries named "." and ".." are passed over and a directory that
    [opendir] cannot open adds nothing.  The loop ends once every directory
    below the input has been taken off [dirs]. *)
Theorem inputFiles_directory (directoryExists : string -> bool)
    (opendir : string -> option (list dirent)) (fuel : nat) (dir outputName : string) :
  directoryExists dir = true ->
  dirCount (Dirent EmptyString true (opendir dir)) <= fuel ->
  inputFiles directoryExists opendir fuel [dir; outputName]
  = Some (outputName, walkListing dir (opendir dir)).
Proof.
  intros Hdir Hfuel. unfold inputFiles. cbn [rev app]. rewrite Hdir.
  rewrite expandDirs_walk.
  - cbn [option_map map List.concat fst snd app]. rewrite app_nil_r. reflexivity.
  - rewrite stackCount_cons. unfold stackCount. cbn [map list_sum fold_right]. lia.
Qed.

Lemma path_below_root (root dir name : string) :
  at_or_below root dir -> exists tail, path_below dir name = (root ++ "/" ++ tail)%string.
Proof.
  unfold path_below. intros [-> | [tail ->]].
  - exists name. reflexivity.
  - exists (tail ++ "/" ++ name)%string. rewrite !append_assoc. reflexivity.
Qed.

Section BelowDirectory.
Variable root : string.
Variable top : option (list dirent).

(** What holds of a directory on [dirs], and of a name in [filenames]. *)
Local Abbreviation on_stack :=
  (fun d : string * option (list dirent) =>
     at_or_below root (fst d) /\ reached root top (fst d) (snd d)).
Local Abbreviation in_files :=
  (fun path : string => below_root root path /\ listed_file root top path).

Lemma filesIn_spec (dir path : string) (entries : list dirent) :
  In path (filesIn dir entries)
  <-> exists e, In e entries /\ is_dir e = false /\ skipped (d_name e) = false
                /\ path = path_below dir (d_name e).
Proof.
  unfold filesIn. rewrite in_flat_map. split.
  - intros [e [He Hp]]. exists e.
    destruct (skipped (d_name e)); [destruct Hp |].
    destruct (is_dir e); cbn [orb] in Hp; [destruct Hp |].
    destruct Hp as [<- | []]. repeat split. exact He.
  - intros [e (He & Hdir & Hskip & ->)]. exists e. split; [exact He |].
    rewrite Hskip, Hdir. left. reflexivity.
Qed.

Lemma pushedBelow_spec (dir : string) (entries : list dirent)
    (d : string * option (list dirent)) :
  In d (pushedBelow dir entries)
  <-> exists e, In e entries /\ pushed e = true
                /\ d = (path_below dir (d_name e), opened e).
Proof.
  unfold pushedBelow. rewrite in_flat_map. split.
  - intros [e [He Hd]]. exists e.
    destruct (pushed e); [| destruct Hd].
    destruct Hd as [<- | []]. repeat split. exact He.
  - intros [e (He & Hpushed & ->)]. exists e. split; [exact He |].
    rewrite Hpushed. left. reflexivity.
Qed.

Lemma filesIn_below (dir : string) (entries : list dirent) :
  at_or_below root dir -> reached root top dir (Some entries) ->
  Forall in_files (filesIn dir entries).
Proof.
  intros Hdir Hreached. apply Forall_forall. intros path Hp.
  apply filesIn_spec in Hp. destruct Hp as [e (He & Hfile & Hskip & ->)]. split.
  - apply path_below_root. exact Hdir.
  - exists dir, entries, e. repeat split; assumption.
Qed.

Lemma pushedBelow_below (dir : string) (entries : list dirent) :
  at_or_below root dir -> reached root top dir (Some entries) ->
  Forall on_stack (pushedBelow dir entries).
Proof.
  intros Hdir Hreached. apply Forall_forall. intros d Hd.
  apply pushedBelow_spec in Hd. destruct Hd as [e (He & Hpushed & ->)].
  cbn [fst snd]. split.
  - right. apply path_below_root. exact Hdir.
  - apply reached_sub with (entries := entries); assumption.
Qed.

Lemma expandDirs_below (fuel : nat) :
  forall (dirs : dir_stack) (filenames result : list string),
    Forall on_stack dirs ->
    Forall in_files filenames ->
    expandDirs fuel dirs filenames = Some result ->
    Forall in_files result.
Proof.
  induction fuel as [| fuel IH]; intros dirs filenames result Hdirs Hfiles Hrun.
  - destruct dirs as [| [dir listing] rest]; cbn in Hrun; [| discriminate].
    injection Hrun as <-. exact Hfiles.
  - destruct dirs as [| [dir [entries |]] rest]; cbn [expandDirs] in Hrun.
    + injection Hrun as <-. exact Hfiles.
    + rewrite readdir_loop in Hrun. cbn [fst snd] in Hrun.
      inversion Hdirs as [| d ds [Hd Hreached] Hrest]; subst. cbn [fst snd] in Hd, Hreached.
      apply (IH _ _ _) with (3 := Hrun).
      * apply Forall_app. split; [| exact Hrest].
        apply Forall_rev, pushedBelow_below; assumption.
      * apply Forall_app. split; [exact Hfiles |]. apply filesIn_below; assumption.
    + inversion Hdirs; subst. apply (IH _ _ _) with (3 := Hrun); assumption.
Qed.

(** The files below a directory the loop takes off [dirs] are among the
    files below the input. *)
Lemma reached_walk (dir : string) (listing : option (list dirent)) :
  reached root top dir listing ->
  incl (walkListing dir listing) (walkListing root top).
Proof.
  intros Hreached. induction Hreached as [| dir entries e _ IH He Hpushed].
  - apply incl_refl.
  - intros path Hpath. apply IH. rewrite walkListing_some.
    apply in_or_app. right. apply in_concat.
    exists (walkListing (path_below dir (d_name e)) (opened e)). split; [| exact Hpath].
    apply (in_map (fun d => walkListing (fst d) (snd d))
                  (rev (pushedBelow dir entries)) (path_below dir (d_name e), opened e)).
    apply -> in_rev. apply pushedBelow_spec. exists e. repeat split; assumption.
Qed.

Lemma listed_file_walk (path : string) :
  listed_file root top path -> In path (walkListing root top).
Proof.
  intros (dir & entries & e & Hreached & He & Hfile & Hskip & ->).
  apply (reached_walk Hreached). rewrite walkListing_some.
  apply in_or_app. left. apply filesIn_spec. exists e. repeat split; assumption.
Qed.

End BelowDirectory.

(** X14: every file name the expansion of a directory produces is a path
    below that directory (the input, a "/" and more), and it is [d/name] for
    an entry [name] that [readdir] returned for a directory [d] the loop took
    off [dirs], the entry being neither of type DT_DIR nor named "." or "..";
    and once every directory below the input has been taken off [dirs], every
    such entry is in the list. *)
Theorem inputFiles_below_directory (directoryExists : string -> bool)
    (opendir : string -> option (list dirent)) (fuel : nat) (dir outputName : string)
    (result : string * list string) :
  directoryExists dir = true ->
  inputFiles directoryExists opendir fuel [dir; outputName] = Some result ->
  fst result = outputName
  /\ Forall (fun path => below_root dir path /\ listed_file dir (opendir dir) path)
            (snd result)
  /\ (dirCount (Dirent EmptyString true (opendir dir)) <= fuel ->
      forall path, listed_file dir (opendir dir) path -> In path (snd result)).
Proof.
  intros Hdir. unfold inputFiles. cbn [rev app]. rewrite Hdir.
  destruct (expandDirs fuel [(dir, opendir dir)] []) as [files |] eqn:Hrun;
    cbn [option_map]; [| discriminate].
  intros H. injection H as <-. cbn [fst snd]. split; [reflexivity |]. split.
  - apply (@expandDirs_below dir (opendir dir) fuel [(dir, opendir dir)] [] files).
    + constructor; [| constructor]. cbn [fst snd].
      split; [left; reflexivity | apply reached_root].
    + constructor.
    + exact Hrun.
  - intros Hfuel path Hpath.
    rewrite expandDirs_walk in Hrun.
    + injection Hrun as <-. cbn [map List.concat fst snd app]. rewrite app_nil_r.
      apply listed_file_walk. exact Hpath.
    + rewrite stackCount_cons. unfold stackCount. cbn [map list_sum fold_right]. lia.
Qed.

(** X15: inputs that are not one single existing directory are taken as they
    are, in order, the last argument being the output name: a directory given
    beside other inputs is not expanded. *)
Theorem inputFiles_as_given (directoryExists : string -> bool)
    (opendir : string -> option (list dirent)) (fuel : nat)
    (inputs : list string) (outputName : string) :
  (forall single, inputs = [single] -> directoryExists single = false) ->
  inputFiles directoryExists opendir fuel (inputs ++ [outputName])
  = Some (outputName, inputs).
Proof.
  intros Hnot. unfold inputFiles.
  rewrite rev_app_distr. cbn [rev app]. rewrite rev_involutive.
  destruct inputs as [| a [| b rest]]; [reflexivity | | reflexivity].
  rewrite (Hnot a eq_refl). reflexivity.
Qed.

End DirectoryExpansion.

(** The sample directory, expanded. *)
Example inputFiles_sample :
  inputFiles sample_directoryExists sample_opendir 4 ["db"; "out"]%string
  = Some ("out", ["db/a.pdb"; "db/z.pdb"; "db/sub/b.cif"; "db/sub/deep/c.pdb"])%string.
Proof. vm_compute. reflexivity. Qed.

Lemma inputFiles_directory_witness :
  inputFiles sample_directoryExists sample_opendir 4 ["db"; "out"]%string
  = Some ("out"%string, walkListing "db" (sample_opendir "db")).
Proof.
  apply (@inputFiles_directory sample_directoryExists sample_opendir 4 "db" "out").
  - reflexivity.
  - vm_compute. lia.
Defined.

Lemma inputFiles_below_directory_witness :
  Forall (fun path => below_root "db" path
                      /\ listed_file "db" (sample_opendir "db") path)
         ["db/a.pdb"; "db/z.pdb"; "db/sub/b.cif"; "db/sub/deep/c.pdb"]%string
  /\ forall path, listed_file "db" (sample_opendir "db") path ->
       In path ["db/a.pdb"; "db/z.pdb"; "db/sub/b.cif"; "db/sub/deep/c.pdb"]%string.
Proof.
  assert (Hrun : inputFiles sample_directoryExists sample_opendir 4 ["db"; "out"]%string
                 = Some ("out", ["db/a.pdb"; "db/z.pdb"; "db/sub/b.cif";
                                 "db/sub/deep/c.pdb"])%string)
    by (vm_compute; reflexivity).
  destruct (@inputFiles_below_directory sample_directoryExists sample_opendir 4
              "db" "out" _ eq_refl Hrun) as (_ & Hfiles & Hall).
  split; [exact Hfiles |]. apply Hall. vm_compute. lia.
Defined.

Lemma inputFiles_as_given_witness :
  inputFiles sample_directoryExists sample_opendir 0
    (["db"; "x.pdb"]%string ++ ["out"%string])%list
  = Some ("out", ["db"; "x.pdb"])%string.
Proof.
  apply (@inputFiles_as_given sample_directoryExists sample_opendir 0
           ["db"; "x.pdb"]%string "out"%string).
  intros single H. discriminate H.
Defined.

(** ** createdb: the lookup and the source file *)

Section LookupProperties.
Variable parseFastaHeader : list ascii -> string.
Variable baseName : string -> string.
Variable filenames : list string.

Local Abbreviation step := (lookupStep parseFastaHeader baseName filenames).
Local Abbreviation entry_of :=
  (fun rec : nat * (Z * list ascii) =>
     MkLookupEntry (fst rec) (parseFastaHeader (snd (snd rec))) (fst (snd rec))).
Local Abbreviation line_of :=
  (fun key : Z => (key, baseName (nth (Z.to_nat key) filenames EmptyString))).

Lemma lookup_loop (headers : list (Z * list ascii)) :
  forall (a : nat) (st : lookup_files),
    globalCounter st = a ->
    let st' := fold_left step (combine (seq a (List.length headers)) headers) st in
    globalCounter st' = a + List.length headers
    /\ lookupFile st'
       = lookupFile st ++ map entry_of (combine (seq a (List.length headers)) headers)
    /\ sourceFile st'
       = sourceFile st ++ map line_of (run_starts (prevFileKey st) (map fst headers)).
Proof.
  induction headers as [| [key header] headers IH]; intros a st Ha; cbn zeta.
  - cbn. rewrite !app_nil_r. repeat split. lia.
  - cbn [List.length seq combine fold_left map run_starts fst snd].
    destruct (IH (S a) (step st (a, (key, header)))) as (Hn & Hl & Hs).
    { cbn [lookupStep globalCounter]. rewrite Ha. reflexivity. }
    cbn zeta in Hn, Hl, Hs. rewrite Hn, Hl, Hs.
    cbn [lookupStep lookupFile sourceFile prevFileKey fst snd]. rewrite Ha.
    split; [lia |]. split.
    + rewrite <- app_assoc. reflexivity.
    + destruct (prevFileKey st =? key)%Z; cbn [app map].
      * reflexivity.
      * rewrite <- app_assoc. reflexivity.
Qed.

Lemma numbered_fst (headers : list (Z * list ascii)) (a : nat) :
  map (fun rec : nat * (Z * list ascii) => fst rec)
      (combine (seq a (List.length headers)) headers)
  = seq a (List.length headers).
Proof.
  revert a. induction headers as [| h headers IH]; intros a; [reflexivity |].
  cbn [List.length seq combine map fst]. rewrite IH. reflexivity.
Qed.

Lemma numbered_snd (headers : list (Z * list ascii)) (a : nat) :
  map (fun rec : nat * (Z * list ascii) => fst (snd rec))
      (combine (seq a (List.length headers)) headers)
  = map fst headers.
Proof.
  revert a. induction headers as [| h headers IH]; intros a; [reflexivity |].
  cbn [List.length seq combine map fst snd]. rewrite IH. reflexivity.
Qed.

Lemma numbered_names (headers : list (Z * list ascii)) (a : nat) :
  map (fun rec : nat * (Z * list ascii) => parseFastaHeader (snd (snd rec)))
      (combine (seq a (List.length headers)) headers)
  = map (fun h => parseFastaHeader (snd h)) headers.
Proof.
  revert a. induction headers as [| h headers IH]; intros a; [reflexivity |].
  cbn [List.length seq combine map fst snd]. rewrite IH. reflexivity.
Qed.

(** X16: the lookup file gets one entry per record of the header database, in
    the order of the records, numbered 0, 1, 2, ... and carrying the key of
    the record as its file number and the parsed header as its name. *)
Theorem lookup_entries_numbered (headers : list (Z * list ascii)) :
  let written := lookupFile (writeLookupFiles parseFastaHeader baseName filenames headers) in
  map id written = seq 0 (List.length headers)
  /\ map fileNumber written = map fst headers
  /\ map entryName written = map (fun h => parseFastaHeader (snd h)) headers.
Proof.
  cbn zeta. unfold writeLookupFiles.
  destruct (@lookup_loop headers 0 (MkLookupFiles SIZE_MAX 0 [] [] []) eq_refl)
    as (_ & Hl & _).
  cbn zeta in Hl. rewrite Hl. cbn [lookupFile app].
  rewrite !map_map. cbn [id fileNumber entryName].
  split; [apply numbered_fst |]. split; [apply numbered_snd | apply numbered_names].
Qed.

Lemma run_starts_sorted (keys : list Z) :
  forall prev,
    StronglySorted Z.le (prev :: keys) ->
    StronglySorted Z.lt (run_starts prev keys)
    /\ Forall (Z.lt prev) (run_starts prev keys)
    /\ forall x, In x (run_starts prev keys) <-> In x keys /\ x <> prev.
Proof.
  induction keys as [| key keys IH]; intros prev Hsorted.
  - cbn. split; [constructor |]. split; [constructor |]. intros x. tauto.
  - apply StronglySorted_inv in Hsorted. destruct Hsorted as [Hrest Hprev].
    destruct (IH key Hrest) as (Hs & Hgt & Hin).
    apply StronglySorted_inv in Hrest. destruct Hrest as [_ Hkey].
    inversion Hprev as [| k ks Hle Hprev']; subst.
    rewrite Forall_forall in Hgt, Hkey.
    cbn [run_starts]. destruct (Z.eqb_spec prev key) as [-> | Hne]; cbn [app].
    + split; [exact Hs |]. split; [apply Forall_forall; exact Hgt |].
      intros x. rewrite Hin. cbn [In]. intuition congruence.
    + split; [constructor; [exact Hs | apply Forall_forall; exact Hgt] |].
      split.
      * constructor; [lia |]. apply Forall_forall. intros x Hx.
        specialize (Hgt x Hx). lia.
      * intros x. cbn [In]. rewrite Hin. split.
        -- intros [<- | [Hx Hxk]]; [split; [left; reflexivity | congruence] |].
           split; [right; exact Hx |]. specialize (Hkey x Hx). lia.
        -- intros [[<- | Hx] Hxp]; [left; reflexivity |].
           destruct (Z.eq_dec key x) as [-> | Hkx]; [left; reflexivity |].
           right. split; [exact Hx | congruence].
Qed.

(** X17: when the records of the header database come with their keys in
    non-decreasing order, the source file gets one line for each key that
    occurs, in increasing order and none twice, and the line of a key holds
    the base name of the file of that index. *)
Theorem source_one_line_per_key (headers : list (Z * list ascii)) :
  Sorted Z.le (map fst headers) ->
  Forall unsigned_key (map fst headers) ->
  let written := sourceFile (writeLookupFiles parseFastaHeader baseName filenames headers) in
  StronglySorted Z.lt (map fst written)
  /\ (forall key, In key (map fst written) <-> In key (map fst headers))
  /\ forall line, In line written ->
       snd line = baseName (nth (Z.to_nat (fst line)) filenames EmptyString).
Proof.
  intros Hsorted Hkeys. cbn zeta. unfold writeLookupFiles.
  destruct (@lookup_loop headers 0 (MkLookupFiles SIZE_MAX 0 [] [] []) eq_refl)
    as (_ & _ & Hs).
  cbn zeta in Hs. rewrite Hs. cbn [sourceFile prevFileKey app].
  rewrite map_map. cbn [fst]. rewrite map_id.
  split; [| split].
  - destruct (map fst headers) as [| key keys]; [constructor |].
    cbn [run_starts].
    inversion Hkeys as [| k ks Hkey _]; subst. unfold unsigned_key in Hkey.
    destruct (Z.eqb_spec SIZE_MAX key) as [Heq | _];
      [unfold SIZE_MAX in Heq; lia |].
    apply Sorted_StronglySorted in Hsorted; [| intros x y z; apply Z.le_trans].
    destruct (run_starts_sorted Hsorted) as (Hs' & Hgt & _).
    cbn [app]. constructor; assumption.
  - intros x. destruct (map fst headers) as [| key keys]; [reflexivity |].
    cbn [run_starts].
    inversion Hkeys as [| k ks Hkey _]; subst. unfold unsigned_key in Hkey.
    destruct (Z.eqb_spec SIZE_MAX key) as [Heq | _];
      [unfold SIZE_MAX in Heq; lia |].
    apply Sorted_StronglySorted in Hsorted; [| intros a b c; apply Z.le_trans].
    destruct (run_starts_sorted Hsorted) as (_ & _ & Hin).
    cbn [app In]. rewrite Hin. split.
    + intros [<- | [Hx _]]; [left; reflexivity | right; exact Hx].
    + intros [<- | Hx]; [left; reflexivity |].
      destruct (Z.eq_dec key x) as [-> | Hne]; [left; reflexivity |].
      right. split; [exact Hx | congruence].
  - intros line Hline. apply in_map_iff in Hline. destruct Hline as [key [<- _]].
    reflexivity.
Qed.

(** The lines of the source file, for records that come with their keys in
    non-decreasing order. *)
Lemma source_lines (headers : list (Z * list ascii)) :
  Sorted Z.le (map fst headers) ->
  Forall unsigned_key (map fst headers) ->
  exists starts,
    sourceFile (writeLookupFiles parseFastaHeader baseName filenames headers)
    = map line_of starts
    /\ StronglySorted Z.lt starts
    /\ forall key, In key starts <-> In key (map fst headers).
Proof.
  intros Hsorted Hkeys. unfold writeLookupFiles.
  destruct (@lookup_loop headers 0 (MkLookupFiles SIZE_MAX 0 [] [] []) eq_refl)
    as (_ & _ & Hs).
  cbn zeta in Hs. rewrite Hs. cbn [sourceFile prevFileKey app].
  exists (run_starts SIZE_MAX (map fst headers)). split; [reflexivity |].
  destruct (map fst headers) as [| key keys].
  - split; [constructor | intros key; reflexivity].
  - cbn [run_starts].
    inversion Hkeys as [| k ks Hkey _]; subst. unfold unsigned_key in Hkey.
    destruct (Z.eqb_spec SIZE_MAX key) as [Heq | _];
      [unfold SIZE_MAX in Heq; lia |].
    apply Sorted_StronglySorted in Hsorted; [| intros x y z; apply Z.le_trans].
    destruct (run_starts_sorted Hsorted) as (Hs' & Hgt & Hin).
    cbn [app]. split; [constructor; assumption |].
    intros x. cbn [In]. rewrite Hin. split.
    + intros [<- | [Hx _]]; [left; reflexivity | right; exact Hx].
    + intros [<- | Hx]; [left; reflexivity |].
      destruct (Z.eq_dec key x) as [-> | Hne]; [left; reflexivity |].
      right. split; [exact Hx | congruence].
Qed.

End LookupProperties.

Lemma source_one_line_per_key_witness :
  StronglySorted Z.lt
    (map fst (sourceFile (writeLookupFiles sample_parse sample_baseName
                            ["a.pdb"; "b.pdb"; "c.pdb"]%string sample_headers)))
  /\ (forall key,
        In key (map fst (sourceFile (writeLookupFiles sample_parse sample_baseName
                                       ["a.pdb"; "b.pdb"; "c.pdb"]%string sample_headers)))
        <-> In key (map fst sample_headers))
  /\ forall line,
       In line (sourceFile (writeLookupFiles sample_parse sample_baseName
                              ["a.pdb"; "b.pdb"; "c.pdb"]%string sample_headers)) ->
       snd line = sample_baseName (nth (Z.to_nat (fst line))
                                       ["a.pdb"; "b.pdb"; "c.pdb"]%string EmptyString).
Proof.
  apply (@source_one_line_per_key sample_parse sample_baseName
           ["a.pdb"; "b.pdb"; "c.pdb"]%string sample_headers).
  - cbn. repeat constructor; lia.
  - cbn. unfold unsigned_key. repeat constructor; lia.
Defined.

(** ** createdb: from the files to the source file *)

Section CreateDbSource.
Variable A : Arith.
Variable float32 : Type.
Variable to_float : A -> float32.
Variable load : string -> option (GemmiWrapper A).
Variable structure2states3Di :
  list (Vec3 A) -> list (Vec3 A) -> list (Vec3 A) -> list (Vec3 A) -> nat -> list Z.
Variable num2aa : Z -> ascii.
Variable parseFastaHeader : list ascii -> string.
Variable baseName : string -> string.

Lemma keys_per_chain_In (filenames : list string) (i : nat) :
  In i (keys_per_chain load filenames (List.length filenames))
  <-> i < List.length filenames /\ 0 < chainCount load filenames i.
Proof.
  rewrite (count_occ_In Nat.eq_dec), keys_per_chain_count.
  destruct (Nat.ltb_spec i (List.length filenames)); lia.
Qed.

(** X18: with fewer than 2^32 input files, when the records of the header
    database are read with their keys in non-decreasing order, the keys being
    those createdb wrote, the source file lists exactly the files that loaded
    and have at least one chain, each once and in the order of the file list,
    with the index of the file and its base name; a file that failed to load
    is not listed. *)
Theorem source_lists_loaded_files
    (filenames : list string) (headers : list (Z * list ascii)) :
  (Z.of_nat (List.length filenames) < 2 ^ 32)%Z ->
  Sorted Z.le (map fst headers) ->
  (forall key,
      In key (map fst headers)
      <-> In key (map Z.of_nat
                      (keys (hdbw (processFiles to_float load structure2states3Di
                                     num2aa filenames))))) ->
  let written :=
    sourceFile (writeLookupFiles parseFastaHeader baseName filenames headers) in
  StronglySorted Z.lt (map fst written)
  /\ forall line,
       In line written
       <-> exists i, i < List.length filenames
                     /\ 0 < chainCount load filenames i
                     /\ line = (Z.of_nat i, baseName (nth i filenames EmptyString)).
Proof.
  intros Hsize Hsorted Hsame written.
  destruct (processFiles_keys to_float load structure2states3Di num2aa filenames)
    as (_ & Hh & _).
  rewrite Hh in Hsame.
  assert (Hwritten : forall key,
             In key (map fst headers)
             <-> exists i, key = Z.of_nat i /\ i < List.length filenames
                           /\ 0 < chainCount load filenames i).
  { intros key. rewrite Hsame, in_map_iff. split.
    - intros [i [<- Hi]]. apply keys_per_chain_In in Hi. exists i. tauto.
    - intros [i (-> & Hi)]. exists i. split; [reflexivity |].
      apply keys_per_chain_In. exact Hi. }
  assert (Hkeys : Forall unsigned_key (map fst headers)).
  { apply Forall_forall. intros key Hkey. apply Hwritten in Hkey.
    destruct Hkey as [i (-> & Hi & _)]. unfold unsigned_key. lia. }
  destruct (@source_lines parseFastaHeader baseName filenames headers Hsorted Hkeys)
    as [starts (Hlines & Hstrict & Hstarts)].
  unfold written. rewrite Hlines. split.
  - rewrite map_map. cbn [fst]. rewrite map_id. exact Hstrict.
  - intros line. rewrite in_map_iff. split.
    + intros [key [<- Hkey]]. apply Hstarts, Hwritten in Hkey.
      destruct Hkey as [i (-> & Hi & Hchains)]. exists i.
      rewrite Nat2Z.id. repeat split; assumption.
    + intros [i (Hi & Hchains & ->)]. exists (Z.of_nat i).
      rewrite Nat2Z.id. split; [reflexivity |].
      apply Hstarts, Hwritten. exists i. repeat split; assumption.
Qed.

End CreateDbSource.

(** The sample run: "bad.pdb" does not load and is not listed. *)
Lemma source_lists_loaded_files_witness :
  StronglySorted Z.lt
    (map fst (sourceFile (writeLookupFiles sample_parse sample_baseName sample_files
                            sample_headers_ok)))
  /\ forall line,
       In line (sourceFile (writeLookupFiles sample_parse sample_baseName sample_files
                              sample_headers_ok))
       <-> exists i, i < List.length sample_files
                     /\ 0 < chainCount sample_load sample_files i
                     /\ line = (Z.of_nat i,
                                sample_baseName (nth i sample_files EmptyString)).
Proof.
  apply (@source_lists_loaded_files DoubleArith float same_float sample_load
           sample_states sample_num2aa sample_parse sample_baseName sample_files
           sample_headers_ok).
  - cbn. lia.
  - cbn. repeat constructor; lia.
  - intros key. vm_compute. tauto.
Defined.

Example source_file_sample :
  sourceFile (writeLookupFiles sample_parse sample_baseName sample_files
                sample_headers_ok)
  = [(1%Z, "ok.pdb"%string)].
Proof. vm_compute. reflexivity. Qed.
